(** * LAS Player: the state store, the event bus and playlist navigation

    A shallow embedding of [core/EventBus.js], [core/StateManager.js] and of
    the storage helpers of [utils/helpers.js], followed by the properties of
    the playlist navigation, of the shuffle order and of persistence.

    Conventions.
    - JavaScript numbers used as indices are integers and are modelled by [Z]
      ([-1] is the "no track" sentinel); array lengths are [nat] and are
      injected with [Z.of_nat] where the source compares them with indices.
    - Other numbers (volume, speed, times) are rationals [Q].
    - An array read [a[i]] is [js_index a i : option _]; [None] is
      [undefined].
    - Methods of the singleton [stateManager] are computations in a small
      state monad over the [World]: the state record, [localStorage], the
      log of published events and the future outputs of [Math.random]. *)

From Stdlib Require Import ZArith QArith Qround Qminmax Lia Permutation.
From Stdlib Require Import Ascii DecimalString Lqa.
From stdpp Require Import base list gmap strings.

Local Open Scope string_scope.
Local Open Scope list_scope.
Local Open Scope Z_scope.

(** ** utils/constants.js *)

Module Constants.

Inductive RepeatMode := OFF | ALL | ONE.
Inductive Theme := DARK | LIGHT.

Module MEDIA_TYPE.
Definition VIDEO : string := "video".
Definition AUDIO : string := "audio".
Definition UNKNOWN : string := "unknown".
End MEDIA_TYPE.

Definition THEMES (t : Theme) : string :=
  match t with DARK => "dark" | LIGHT => "light" end.

Definition DEFAULT_SPEED : Q := 1%Q.
Definition DEFAULT_VOLUME : Q := 1%Q.

Module STORAGE_KEYS.
Definition VOLUME : string := "las-player-volume".
Definition THEME : string := "las-player-theme".
Definition PLAYBACK_SPEED : string := "las-player-speed".
Definition PLAYLIST : string := "las-player-playlist".
End STORAGE_KEYS.

Module EVENTS.
Definition PLAYLIST_UPDATE : string := "playlist:update".
Definition TRACK_CHANGE : string := "playlist:trackchange".
Definition SHUFFLE_TOGGLE : string := "playlist:shuffle".
Definition REPEAT_TOGGLE : string := "playlist:repeat".
End EVENTS.

#[global] Instance RepeatMode_eq_dec : EqDecision RepeatMode.
Proof. solve_decision. Defined.
#[global] Instance RepeatMode_inhabited : Inhabited RepeatMode := populate OFF.
#[global] Instance Theme_eq_dec : EqDecision Theme.
Proof. solve_decision. Defined.

End Constants.
Export Constants.

(** ** JavaScript values and arrays *)

(** The values that travel through [JSON.stringify] / [JSON.parse]. A
    number is a rational: [NaN] and the infinities, which [JSON.stringify]
    writes as [null], are left out. *)
Inductive JSValue :=
| JSNull
| JSBool (b : bool)
| JSNum (q : Q)
| JSStr (s : string)
| JSObject.   (* an array or an object; the store never looks inside one *)

(** [if (v)]: JavaScript truthiness. *)
Definition truthy (v : JSValue) : bool :=
  match v with
  | JSNull => false
  | JSBool b => b
  | JSNum q => negb (Qeq_bool q 0)
  | JSStr s => negb (String.eqb s EmptyString)
  | JSObject => true
  end.

(** [a[i]] for a number [i]; [None] stands for [undefined]. *)
Definition js_index {A} (a : list A) (i : Z) : option A :=
  if decide (0 <= i) then a !! Z.to_nat i else None.

(** [a.indexOf(x)]: position of the first occurrence, [-1] when absent. *)
Fixpoint indexOf_from `{EqDecision A} (k : Z) (a : list A) (x : A) : Z :=
  match a with
  | [] => -1
  | y :: a' => if decide (y = x) then k else indexOf_from (k + 1) a' x
  end.
Definition indexOf `{EqDecision A} (a : list A) (x : A) : Z :=
  indexOf_from 0 a x.

(** [a.filter((_, i) => i !== index)] *)
Fixpoint filter_index_from {A} (k : Z) (a : list A) (index : Z) : list A :=
  match a with
  | [] => []
  | x :: a' =>
      if decide (k ≠ index) then x :: filter_index_from (k + 1) a' index
      else filter_index_from (k + 1) a' index
  end.
Definition filter_index {A} (a : list A) (index : Z) : list A :=
  filter_index_from 0 a index.

(** [a.map((_, i) => i)] *)
Definition index_map {A} (a : list A) : list Z :=
  imap (fun i _ => Z.of_nat i) a.

(** [[a[i], a[j]] = [a[j], a[i]]]: the right-hand side is read first, then
    both cells are written. In JavaScript a read outside the array gives
    [undefined] and a write outside it extends the array; here such a read
    gives [0] and such a write is dropped. Neither happens in the loop of
    [toggleShuffle], which keeps [0 <= j <= i < a.length]. *)
Definition swap (a : list Z) (i j : nat) : list Z :=
  let ai := a !!! i in
  let aj := a !!! j in
  <[j := ai]> (<[i := aj]> a).

(** ** core/EventBus.js *)

Module EventBus.

(** A callback is a function object; the bus compares callbacks by
    reference, so a callback is identified here by a number. *)
Definition Callback := nat.

(** A JavaScript [Set] of callbacks: the members in insertion order, each
    at most once. *)
Definition set_add (s : list Callback) (c : Callback) : list Callback :=
  if decide (c ∈ s) then s else s ++ [c].
Definition set_delete (s : list Callback) (c : Callback) : list Callback :=
  filter (fun c' => c' ≠ c) s.

(** [this.events]: a [Map] from event names to sets of callbacks. *)
Record t := { events : gmap string (list Callback) }.

(** [new EventBus()] *)
Definition new : t := {| events := ∅ |}.

(** The closure [() => this.off(event, callback)] returned by [on]. *)
Record Unsubscribe := { u_event : string; u_callback : Callback }.

(** Every set of the map is duplicate free; [Set] guarantees it. *)
Definition wf (bus : t) : Prop :=
  ∀ event s, events bus !! event = Some s → NoDup s.

Definition on (event : string) (callback : Callback) (bus : t)
  : t * Unsubscribe :=
  let events1 :=
    if decide (is_Some (events bus !! event)) then events bus
    else <[event := []]> (events bus) in
  let events2 := alter (fun s => set_add s callback) event events1 in
  ({| events := events2 |},
   {| u_event := event; u_callback := callback |}).

Definition off (event : string) (callback : Callback) (bus : t) : t :=
  if decide (is_Some (events bus !! event))
  then {| events := alter (fun s => set_delete s callback) event (events bus) |}
  else bus.

(** Calling the function that [on] returned. *)
Definition unsubscribe (u : Unsubscribe) (bus : t) : t :=
  off (u_event u) (u_callback u) bus.

(** [emit(event, data)]: the calls [callback(data)] it makes, in order. An
    exception of a callback is caught and logged, the iteration goes on. *)
Definition emit {Data} (event : string) (data : Data) (bus : t)
  : list (Callback * Data) :=
  match events bus !! event with
  | Some s => (fun callback => (callback, data)) <$> s
  | None => []
  end.

Definition clear (event : option string) (bus : t) : t :=
  match event with
  | Some e =>
      if negb (String.eqb e EmptyString) then {| events := delete e (events bus) |}
      else {| events := ∅ |}
  | None => {| events := ∅ |}
  end.

Definition listenerCount (event : string) (bus : t) : nat :=
  match events bus !! event with
  | Some s => length s
  | None => 0%nat
  end.

(** How often [emit] called a given callback. *)
Definition calls {Data} (callback : Callback) (trace : list (Callback * Data))
  : nat :=
  length (filter (fun call => call.1 = callback) trace).

End EventBus.

(** ** Tracks (built by the file loader, opaque to the store; the [File]
    handle a track carries is left out) *)

Module Track.
Record t := {
  id : string;
  name : string;
  filename : string;
  path : string;
  url : string;
  type : string;
  size : N;
  artist : string;
  album : string;
  cover : option string;
  duration : option Q;
}.
End Track.

(** ** core/StateManager.js *)

Module StateManager.

(** [this.state]. The playlist fields and the three persisted settings are
    typed; the sixteen fields that no method of the store ever reads
    ([isPlaying], [currentTime], [duration], [isBuffering], [isMuted],
    [mediaType], [currentSrc], [mediaTitle], [mediaArtist], [mediaCover],
    [isFullscreen], [isPiP], [controlsVisible], [sidebarOpen],
    [subtitlesEnabled], [subtitleSrc]) are kept as the JavaScript object
    they are, a map from keys to values. The persisted settings are
    [JSValue]s because [loadPersistedState] stores whatever [JSON.parse]
    returned. *)
Record PlayerState := {
  playbackRate : JSValue;
  volume : JSValue;
  playlist : list Track.t;
  currentTrackIndex : Z;
  shuffleEnabled : bool;
  repeatMode : RepeatMode;
  shuffledOrder : list Z;
  theme : JSValue;
  others : gmap string JSValue;
}.

(** An [updates] object: the keys it has, with their values. *)
Record Updates := {
  u_playbackRate : option JSValue;
  u_volume : option JSValue;
  u_playlist : option (list Track.t);
  u_currentTrackIndex : option Z;
  u_shuffleEnabled : option bool;
  u_repeatMode : option RepeatMode;
  u_shuffledOrder : option (list Z);
  u_theme : option JSValue;
  u_others : gmap string JSValue;
}.

(** [Object.assign(state, updates)]: every key of [updates] overwrites. *)
Definition assign (s : PlayerState) (u : Updates) : PlayerState :=
  {| playbackRate := default (playbackRate s) (u_playbackRate u);
     volume := default (volume s) (u_volume u);
     playlist := default (playlist s) (u_playlist u);
     currentTrackIndex := default (currentTrackIndex s) (u_currentTrackIndex u);
     shuffleEnabled := default (shuffleEnabled s) (u_shuffleEnabled u);
     repeatMode := default (repeatMode s) (u_repeatMode u);
     shuffledOrder := default (shuffledOrder s) (u_shuffledOrder u);
     theme := default (theme s) (u_theme u);
     others := u_others u ∪ others s |}.

(** The object literal of the constructor. *)
Definition initial_state : PlayerState :=
  {| playbackRate := JSNum DEFAULT_SPEED;
     volume := JSNum DEFAULT_VOLUME;
     playlist := [];
     currentTrackIndex := -1;
     shuffleEnabled := false;
     repeatMode := OFF;
     shuffledOrder := [];
     theme := JSStr (THEMES DARK);
     others := list_to_map
       [ ("isPlaying", JSBool false); ("currentTime", JSNum 0);
         ("duration", JSNum 0); ("isBuffering", JSBool false);
         ("isMuted", JSBool false); ("mediaType", JSStr MEDIA_TYPE.VIDEO);
         ("currentSrc", JSNull); ("mediaTitle", JSStr EmptyString);
         ("mediaArtist", JSStr EmptyString); ("mediaCover", JSNull);
         ("isFullscreen", JSBool false); ("isPiP", JSBool false);
         ("controlsVisible", JSBool true); ("sidebarOpen", JSBool false);
         ("subtitlesEnabled", JSBool false); ("subtitleSrc", JSNull) ] |}.

(** What [eventBus.emit] is given by the store. *)
Inductive Payload :=
| StateChange (current previous : PlayerState) (changes : Updates)
| PlaylistUpdate (playlist : list Track.t)
| TrackChange (track : option Track.t) (index : Z)
| ShuffleToggle (shuffleEnabled : bool)
| RepeatToggle (repeatMode : RepeatMode).

Definition Event : Type := string * Payload.

(** [window.localStorage]: string items; when the storage is not available
    (disabled, or the quota is used up) its methods throw. *)
Record LocalStorage := {
  available : bool;
  items : gmap string string;
}.

(** Everything the methods of the store read or write. *)
Record World := {
  state : PlayerState;
  localStorage : LocalStorage;
  published : list Event;      (* the calls of [eventBus.emit], in order *)
  random : nat -> Q;           (* what the next calls of [Math.random] return *)
}.

Definition M (A : Type) : Type := World → A * World.

#[global] Instance M_ret : MRet M := fun A a w => (a, w).
#[global] Instance M_bind : MBind M := fun A B f m w =>
  let '(a, w') := m w in f a w'.

(** [this.state] *)
Definition this_state : M PlayerState := fun w => (state w, w).

Definition put_state (s : PlayerState) : M unit := fun w =>
  (tt, {| state := s; localStorage := localStorage w;
          published := published w; random := random w |}).

(** [eventBus.emit(event, data)]: the call is recorded. What the subscribed
    callbacks then do is theirs, not the store's. *)
Definition eventBus_emit (event : string) (data : Payload) : M unit := fun w =>
  (tt, {| state := state w; localStorage := localStorage w;
          published := published w ++ [(event, data)]; random := random w |}).

(** [Math.random()] *)
Definition Math_random : M Q := fun w =>
  (random w 0%nat,
   {| state := state w; localStorage := localStorage w;
      published := published w; random := fun k => random w (S k) |}).

(** The result of running a method, and the world it leaves. *)
Definition result {A} (m : M A) (w : World) : A := (m w).1.
Definition after {A} (m : M A) (w : World) : World := (m w).2.

Section Platform.

(** The JSON codec of the platform. [JSON_stringify v] is the text that
    [localStorage.setItem] receives; [JSON_parse] is [None] where
    [JSON.parse] throws a [SyntaxError]. *)
Variable JSON_stringify : JSValue → string.
Variable JSON_parse : string → option JSValue.

(** *** utils/helpers.js: [storageGet], [storageSet] *)

Definition storageGet (key : string) (defaultValue : JSValue) : M JSValue :=
  fun w =>
    let ls := localStorage w in
    if available ls then
      match items ls !! key with
      | Some item =>
          match JSON_parse item with
          | Some v => (v, w)
          | None => (defaultValue, w)           (* catch *)
          end
      | None => (defaultValue, w)
      end
    else (defaultValue, w).                     (* catch *)

Definition storageSet (key : string) (value : JSValue) : M unit := fun w =>
  let ls := localStorage w in
  if available ls then
    (tt, {| state := state w;
            localStorage :=
              {| available := available ls;
                 items := <[key := JSON_stringify value]> (items ls) |};
            published := published w; random := random w |})
  else (tt, w).                                 (* catch *)

(** *** The methods of [StateManager] *)

Definition loadPersistedState : M unit :=
  savedVolume ← storageGet STORAGE_KEYS.VOLUME JSNull;
  (match savedVolume with
   | JSNull => mret tt
   | _ => s ← this_state;
          put_state (assign s {| u_playbackRate := None;
            u_volume := Some savedVolume; u_playlist := None;
            u_currentTrackIndex := None; u_shuffleEnabled := None;
            u_repeatMode := None; u_shuffledOrder := None;
            u_theme := None; u_others := ∅ |})
   end);;
  savedTheme ← storageGet STORAGE_KEYS.THEME JSNull;
  (if truthy savedTheme then
     s ← this_state;
     put_state (assign s {| u_playbackRate := None;
       u_volume := None; u_playlist := None;
       u_currentTrackIndex := None; u_shuffleEnabled := None;
       u_repeatMode := None; u_shuffledOrder := None;
       u_theme := Some savedTheme; u_others := ∅ |})
   else mret tt);;
  savedSpeed ← storageGet STORAGE_KEYS.PLAYBACK_SPEED JSNull;
  (match savedSpeed with
   | JSNull => mret tt
   | _ => s ← this_state;
          put_state (assign s {| u_playbackRate := Some savedSpeed;
            u_volume := None; u_playlist := None;
            u_currentTrackIndex := None; u_shuffleEnabled := None;
            u_repeatMode := None; u_shuffledOrder := None;
            u_theme := None; u_others := ∅ |})
   end).

(** [new StateManager()] *)
Definition constructor : M unit :=
  put_state initial_state;;
  loadPersistedState.

(** [get(key)]: one field, or a copy of the whole record. *)
Inductive FieldValue :=
| FValue (v : JSValue)
| FPlaylist (l : list Track.t)
| FNumber (z : Z)
| FBoolean (b : bool)
| FRepeatMode (r : RepeatMode)
| FOrder (l : list Z)
| FUndefined.

Inductive GetResult :=
| Field (v : FieldValue)
| Snapshot (s : PlayerState).

(** [state[key]] *)
Definition field (s : PlayerState) (key : string) : FieldValue :=
  if String.eqb key "playbackRate" then FValue (playbackRate s)
  else if String.eqb key "volume" then FValue (volume s)
  else if String.eqb key "playlist" then FPlaylist (playlist s)
  else if String.eqb key "currentTrackIndex" then FNumber (currentTrackIndex s)
  else if String.eqb key "shuffleEnabled" then FBoolean (shuffleEnabled s)
  else if String.eqb key "repeatMode" then FRepeatMode (repeatMode s)
  else if String.eqb key "shuffledOrder" then FOrder (shuffledOrder s)
  else if String.eqb key "theme" then FValue (theme s)
  else match others s !! key with
       | Some v => FValue v
       | None => FUndefined
       end.

Definition get (key : option string) : M GetResult :=
  s ← this_state;
  match key with
  | Some k =>
      if negb (String.eqb k EmptyString) then mret (Field (field s k))
      else mret (Snapshot s)
  | None => mret (Snapshot s)
  end.

Definition persistState (updates : Updates) : M unit :=
  (match u_volume updates with
   | Some v => storageSet STORAGE_KEYS.VOLUME v
   | None => mret tt
   end);;
  (match u_theme updates with
   | Some v => storageSet STORAGE_KEYS.THEME v
   | None => mret tt
   end);;
  (match u_playbackRate updates with
   | Some v => storageSet STORAGE_KEYS.PLAYBACK_SPEED v
   | None => mret tt
   end).

(** [set(updates, eventName)]; [eventName] is [None] when omitted. *)
Definition set (updates : Updates) (eventName : option string) : M unit :=
  previousState ← this_state;
  put_state (assign previousState updates);;
  persistState updates;;
  match eventName with
  | Some e =>
      if negb (String.eqb e EmptyString) then
        current ← this_state;
        eventBus_emit e (StateChange current previousState updates)
      else mret tt
  | None => mret tt
  end.

Definition setPlaylist (playlist : list Track.t) : M unit :=
  set {| u_playbackRate := None; u_volume := None;
         u_playlist := Some playlist;
         u_currentTrackIndex :=
           Some (if decide (0 < length playlist)%nat then 0 else -1);
         u_shuffleEnabled := None; u_repeatMode := None;
         u_shuffledOrder := None; u_theme := None; u_others := ∅ |} None;;
  eventBus_emit EVENTS.PLAYLIST_UPDATE (PlaylistUpdate playlist).

Definition addToPlaylist (tracks : list Track.t) : M unit :=
  s ← this_state;
  let newPlaylist := playlist s ++ tracks in
  setPlaylist newPlaylist.

Definition removeFromPlaylist (index : Z) : M unit :=
  s ← this_state;
  let newPlaylist := filter_index (playlist s) index in
  let newIndex := currentTrackIndex s in
  let newIndex :=
    if decide (index < newIndex) then newIndex - 1
    else if decide (index = newIndex)
         then Z.min newIndex (Z.of_nat (length newPlaylist) - 1)
         else newIndex in
  set {| u_playbackRate := None; u_volume := None;
         u_playlist := Some newPlaylist;
         u_currentTrackIndex := Some newIndex;
         u_shuffleEnabled := None; u_repeatMode := None;
         u_shuffledOrder := None; u_theme := None; u_others := ∅ |} None;;
  eventBus_emit EVENTS.PLAYLIST_UPDATE (PlaylistUpdate newPlaylist).

Definition setCurrentTrack (index : Z) : M unit :=
  s ← this_state;
  if decide (0 <= index ∧ index < Z.of_nat (length (playlist s))) then
    set {| u_playbackRate := None; u_volume := None; u_playlist := None;
           u_currentTrackIndex := Some index;
           u_shuffleEnabled := None; u_repeatMode := None;
           u_shuffledOrder := None; u_theme := None; u_others := ∅ |} None;;
    s' ← this_state;
    eventBus_emit EVENTS.TRACK_CHANGE
      (TrackChange (js_index (playlist s') index) index)
  else mret tt.

(** [null] is [None]; a read outside the playlist is [undefined], which
    the callers treat like [null]. *)
Definition getCurrentTrack : M (option Track.t) :=
  s ← this_state;
  if decide (0 <= currentTrackIndex s)
  then mret (js_index (playlist s) (currentTrackIndex s))
  else mret None.

Definition getNextTrackIndex : M (option Z) :=
  s ← this_state;
  if decide (length (playlist s) = 0%nat) then mret (Some (-1))
  else if decide (repeatMode s = ONE) then mret (Some (currentTrackIndex s))
  else if shuffleEnabled s && bool_decide (0 < length (shuffledOrder s))%nat
  then
    let currentShufflePos := indexOf (shuffledOrder s) (currentTrackIndex s) in
    let nextShufflePos := currentShufflePos + 1 in
    if decide (Z.of_nat (length (shuffledOrder s)) <= nextShufflePos) then
      mret (if decide (repeatMode s = ALL)
            then js_index (shuffledOrder s) 0 else Some (-1))
    else mret (js_index (shuffledOrder s) nextShufflePos)
  else
    let nextIndex := currentTrackIndex s + 1 in
    if decide (Z.of_nat (length (playlist s)) <= nextIndex) then
      mret (Some (if decide (repeatMode s = ALL) then 0 else -1))
    else mret (Some nextIndex).

Definition getPreviousTrackIndex : M (option Z) :=
  s ← this_state;
  if decide (length (playlist s) = 0%nat) then mret (Some (-1))
  else if shuffleEnabled s && bool_decide (0 < length (shuffledOrder s))%nat
  then
    let currentShufflePos := indexOf (shuffledOrder s) (currentTrackIndex s) in
    let prevShufflePos := currentShufflePos - 1 in
    mret (if decide (0 <= prevShufflePos)
          then js_index (shuffledOrder s) prevShufflePos
          else js_index (shuffledOrder s)
                 (Z.of_nat (length (shuffledOrder s)) - 1))
  else
    mret (Some (if decide (0 < currentTrackIndex s)
                then currentTrackIndex s - 1
                else Z.of_nat (length (playlist s)) - 1)).

(** The loop [for (let i = indices.length - 1; i > 0; i--)] of
    [toggleShuffle], entered with the value of [i]. *)
Fixpoint shuffle_loop (i : nat) (indices : list Z) : M (list Z) :=
  match i with
  | O => mret indices
  | S i' =>
      r ← Math_random;
      let j := Z.to_nat (Qfloor (r * inject_Z (Z.of_nat i + 1))) in
      shuffle_loop i' (swap indices i j)
  end.

Definition toggleShuffle : M unit :=
  s ← this_state;
  let shuffleEnabled' := negb (shuffleEnabled s) in
  shuffledOrder' ←
    (if shuffleEnabled' then
       let indices :=
         filter (fun i => i ≠ currentTrackIndex s) (index_map (playlist s)) in
       indices ← shuffle_loop (length indices - 1) indices;
       mret (currentTrackIndex s :: indices)
     else mret []);
  set {| u_playbackRate := None; u_volume := None; u_playlist := None;
         u_currentTrackIndex := None;
         u_shuffleEnabled := Some shuffleEnabled'; u_repeatMode := None;
         u_shuffledOrder := Some shuffledOrder'; u_theme := None;
         u_others := ∅ |} None;;
  eventBus_emit EVENTS.SHUFFLE_TOGGLE (ShuffleToggle shuffleEnabled').

Definition cycleRepeatMode : M unit :=
  s ← this_state;
  let modes := [OFF; ALL; ONE] in
  let currentIndex := indexOf modes (repeatMode s) in
  let nextMode :=
    modes !!! Z.to_nat (Z.rem (currentIndex + 1) (Z.of_nat (length modes))) in
  set {| u_playbackRate := None; u_volume := None; u_playlist := None;
         u_currentTrackIndex := None; u_shuffleEnabled := None;
         u_repeatMode := Some nextMode; u_shuffledOrder := None;
         u_theme := None; u_others := ∅ |} None;;
  eventBus_emit EVENTS.REPEAT_TOGGLE (RepeatToggle nextMode).

End Platform.

End StateManager.

(** ** Specifications, in the words of the design document *)

Module Spec.
Import StateManager.

(** The callbacks registered for an event, in registration order. *)
Definition listeners (event : string) (bus : EventBus.t)
  : list EventBus.Callback :=
  default [] (EventBus.events bus !! event).

(** The items of the storage after a [persistState(updates)] that could
    write: one item for each of the three persisted keys in [updates]. *)
Definition persisted (stringify : JSValue → string) (u : Updates)
    (stored : gmap string string) : gmap string string :=
  let write key (value : option JSValue) (m : gmap string string) :=
    match value with
    | Some v => <[key := stringify v]> m
    | None => m
    end in
  write STORAGE_KEYS.PLAYBACK_SPEED (u_playbackRate u)
    (write STORAGE_KEYS.THEME (u_theme u)
       (write STORAGE_KEYS.VOLUME (u_volume u) stored)).

(** The indices [0, 1, ..., n-1]. *)
Definition valid_indices (n : nat) : list Z := Z.of_nat <$> seq 0 n.

(** [currentTrackIndex] is [-1] or an index into the playlist. *)
Definition index_inv (s : PlayerState) : Prop :=
  currentTrackIndex s = -1 ∨
  0 <= currentTrackIndex s < Z.of_nat (length (playlist s)).

(** [currentTrackIndex] points at a track. *)
Definition has_current (s : PlayerState) : Prop :=
  0 <= currentTrackIndex s < Z.of_nat (length (playlist s)).

(** [shuffledOrder], when non-empty, is a permutation of the indices. *)
Definition shuffle_inv (s : PlayerState) : Prop :=
  shuffledOrder s = [] ∨
  shuffledOrder s ≡ₚ valid_indices (length (playlist s)).

(** Shuffle mode: shuffle is enabled and a shuffle order exists. *)
Definition shuffle_mode (s : PlayerState) : Prop :=
  shuffleEnabled s = true ∧ shuffledOrder s ≠ [].
Definition sequential_mode (s : PlayerState) : Prop :=
  shuffleEnabled s = false ∨ shuffledOrder s = [].

(** The indices that [toggleShuffle] shuffles: all but the current one. *)
Definition other_indices (s : PlayerState) : list Z :=
  filter (fun i => i ≠ currentTrackIndex s) (index_map (playlist s)).

(** [Math.random()] returns a number in [[0, 1)]. *)
Definition random_ok (w : World) : Prop :=
  ∀ k, (0 <= random w k)%Q ∧ (random w k < 1)%Q.

(** What [getNextTrackIndex] is to return. The position of the current
    index in the shuffle order is that of its first occurrence:
    [pre ++ current :: _] with [current] not in [pre]. When the current
    index does not occur at all, the order is entered at its start. *)
Inductive next_spec (s : PlayerState) : option Z → Prop :=
| next_empty :
    playlist s = [] →
    next_spec s (Some (-1))
| next_repeat_one :
    playlist s ≠ [] → repeatMode s = ONE →
    next_spec s (Some (currentTrackIndex s))
| next_shuffle_step pre nxt post :
    playlist s ≠ [] → repeatMode s ≠ ONE → shuffle_mode s →
    shuffledOrder s = pre ++ currentTrackIndex s :: nxt :: post →
    currentTrackIndex s ∉ pre →
    next_spec s (Some nxt)
| next_shuffle_wrap pre first :
    playlist s ≠ [] → repeatMode s = ALL → shuffle_mode s →
    shuffledOrder s = pre ++ [currentTrackIndex s] →
    currentTrackIndex s ∉ pre →
    head (shuffledOrder s) = Some first →
    next_spec s (Some first)
| next_shuffle_end pre :
    playlist s ≠ [] → repeatMode s = OFF → shuffle_mode s →
    shuffledOrder s = pre ++ [currentTrackIndex s] →
    currentTrackIndex s ∉ pre →
    next_spec s (Some (-1))
| next_shuffle_absent first :
    playlist s ≠ [] → repeatMode s ≠ ONE → shuffle_mode s →
    currentTrackIndex s ∉ shuffledOrder s →
    head (shuffledOrder s) = Some first →
    next_spec s (Some first)
| next_sequential_step :
    playlist s ≠ [] → repeatMode s ≠ ONE → sequential_mode s →
    currentTrackIndex s + 1 < Z.of_nat (length (playlist s)) →
    next_spec s (Some (currentTrackIndex s + 1))
| next_sequential_wrap :
    playlist s ≠ [] → repeatMode s = ALL → sequential_mode s →
    Z.of_nat (length (playlist s)) <= currentTrackIndex s + 1 →
    next_spec s (Some 0)
| next_sequential_end :
    playlist s ≠ [] → repeatMode s = OFF → sequential_mode s →
    Z.of_nat (length (playlist s)) <= currentTrackIndex s + 1 →
    next_spec s (Some (-1)).

(** What [getPreviousTrackIndex] returns: as above in the other
    direction, but at the start it wraps to the end whatever the repeat
    mode is, in shuffle mode and in sequential mode alike. *)
Inductive previous_spec (s : PlayerState) : option Z → Prop :=
| previous_empty :
    playlist s = [] →
    previous_spec s (Some (-1))
| previous_shuffle_step pre prv post :
    playlist s ≠ [] → shuffle_mode s →
    shuffledOrder s = pre ++ prv :: currentTrackIndex s :: post →
    currentTrackIndex s ∉ pre → currentTrackIndex s ≠ prv →
    previous_spec s (Some prv)
| previous_shuffle_wrap post final :
    playlist s ≠ [] → shuffle_mode s →
    shuffledOrder s = currentTrackIndex s :: post →
    last (shuffledOrder s) = Some final →
    previous_spec s (Some final)
| previous_shuffle_absent final :
    playlist s ≠ [] → shuffle_mode s →
    currentTrackIndex s ∉ shuffledOrder s →
    last (shuffledOrder s) = Some final →
    previous_spec s (Some final)
| previous_sequential_step :
    playlist s ≠ [] → sequential_mode s →
    0 < currentTrackIndex s →
    previous_spec s (Some (currentTrackIndex s - 1))
| previous_sequential_wrap :
    playlist s ≠ [] → sequential_mode s →
    currentTrackIndex s <= 0 →
    previous_spec s (Some (Z.of_nat (length (playlist s)) - 1)).

End Spec.

(** ** Sample data for the examples *)

Module Sample.
Import StateManager.

Definition track (n : string) : Track.t :=
  {| Track.id := n; Track.name := n; Track.filename := n +:+ ".mp3";
     Track.path := n +:+ ".mp3"; Track.url := "blob:" +:+ n;
     Track.type := MEDIA_TYPE.AUDIO; Track.size := 1024%N;
     Track.artist := EmptyString; Track.album := EmptyString;
     Track.cover := None; Track.duration := None |}.

Definition A := track "A".
Definition B := track "B".
Definition C := track "C".

(** A JSON codec for the few values the examples store (it writes the
    quotes of a string as apostrophes). *)
Definition JSON_stringify (v : JSValue) : string :=
  match v with
  | JSNull => "null"
  | JSBool true => "true"
  | JSBool false => "false"
  | JSNum q =>
      if Qeq_bool q (42 # 100) then "0.42"
      else if Qeq_bool q (3 # 2) then "1.5"
      else if Qeq_bool q 1 then "1"
      else "0"
  | JSStr s => "'" +:+ s +:+ "'"
  | JSObject => "{}"
  end.

Definition JSON_parse (text : string) : option JSValue :=
  if String.eqb text "null" then Some JSNull
  else if String.eqb text "true" then Some (JSBool true)
  else if String.eqb text "false" then Some (JSBool false)
  else if String.eqb text "0.42" then Some (JSNum (42 # 100))
  else if String.eqb text "1.5" then Some (JSNum (3 # 2))
  else if String.eqb text "1" then Some (JSNum 1)
  else if String.eqb text "0" then Some (JSNum 0)
  else if String.eqb text "'dark'" then Some (JSStr "dark")
  else if String.eqb text "'light'" then Some (JSStr "light")
  else if String.eqb text "''" then Some (JSStr EmptyString)
  else if String.eqb text "{}" then Some JSObject
  else None.

Definition storage : LocalStorage := {| available := true; items := ∅ |}.

(** A world around a given state: an empty storage, nothing published
    yet, and [Math.random] returning [1/2] for ever. *)
Definition world (s : PlayerState) : World :=
  {| state := s; localStorage := storage; published := [];
     random := fun _ => (1 # 2)%Q |}.

(** The initial state with a playlist, a current index, a repeat mode and
    a shuffle order filled in. *)
Definition player (tracks : list Track.t) (current : Z) (mode : RepeatMode)
    (shuffle : bool) (order : list Z) : PlayerState :=
  {| playbackRate := playbackRate initial_state;
     volume := volume initial_state;
     playlist := tracks;
     currentTrackIndex := current;
     shuffleEnabled := shuffle;
     repeatMode := mode;
     shuffledOrder := order;
     theme := theme initial_state;
     others := others initial_state |}.

(** [{ volume: 0.42, theme: 'light', playbackRate: 1.5 }] *)
Definition settings : Updates :=
  {| u_playbackRate := Some (JSNum (3 # 2));
     u_volume := Some (JSNum (42 # 100));
     u_playlist := None; u_currentTrackIndex := None;
     u_shuffleEnabled := None; u_repeatMode := None;
     u_shuffledOrder := None;
     u_theme := Some (JSStr (THEMES LIGHT));
     u_others := ∅ |}.

End Sample.

(** ** utils/constants.js, continued: the lists of [PLAYER_CONFIG] *)

Module PLAYER_CONFIG.
Definition AUDIO_EXTENSIONS : list string :=
  ["mp3"; "wav"; "ogg"; "flac"; "aac"; "m4a"; "wma"].
Definition VIDEO_EXTENSIONS : list string :=
  ["mp4"; "webm"; "mkv"; "avi"; "mov"; "wmv"; "flv"].
End PLAYER_CONFIG.

(** ** utils/helpers.js *)

Module Helpers.
Import StateManager.

(** [Math.min(max, Math.max(min, value))] *)
Definition clamp (value min max : Q) : Q := Qmin max (Qmax min value).

(** [s.split('.')]: the pieces between the dots, at least one piece. *)
Fixpoint split_dot (s : string) : list string :=
  match s with
  | EmptyString => [EmptyString]
  | String c s' =>
      if Ascii.eqb c "." then EmptyString :: split_dot s'
      else match split_dot s' with
           | piece :: pieces => String c piece :: pieces
           | [] => [String c EmptyString]
           end
  end.

(** [String(n)] for an integer [n] (below 10^21, where JavaScript changes
    to the exponent notation). *)
Definition String_of (n : Z) : string := NilZero.string_of_int (Z.to_int n).

(** [s.padStart(targetLength, c)] for a one-character pad string. *)
Definition padStart (targetLength : nat) (c : ascii) (s : string) : string :=
  String.string_of_list_ascii (replicate (targetLength - String.length s) c) +:+ s.

(** [formatTime(seconds)]; [seconds] is a number, [NaN] left out. *)
Definition formatTime (seconds : Q) : string :=
  if Qlt_le_dec seconds 0 then "00:00"
  else
    let totalSeconds := Qfloor seconds in
    let hours := totalSeconds / 3600 in
    let minutes := Z.rem totalSeconds 3600 / 60 in
    let secs := Z.rem totalSeconds 60 in
    let paddedMinutes := padStart 2 "0" (String_of minutes) in
    let paddedSeconds := padStart 2 "0" (String_of secs) in
    if decide (0 < hours) then
      let paddedHours := padStart 2 "0" (String_of hours) in
      paddedHours +:+ ":" +:+ paddedMinutes +:+ ":" +:+ paddedSeconds
    else paddedMinutes +:+ ":" +:+ paddedSeconds.

Section FileNames.

(** [String.prototype.toLowerCase], left to the platform. *)
Variable toLowerCase : string → string.

(** [getFileExtension(filename)] for a string [filename]. *)
Definition getFileExtension (filename : string) : string :=
  if String.eqb filename EmptyString then EmptyString
  else
    let parts := split_dot filename in
    if decide (1 < length parts)%nat
    then match last parts with
         | Some piece => toLowerCase piece
         | None => EmptyString
         end
    else EmptyString.

Definition getMediaType (filename : string) : string :=
  let ext := getFileExtension filename in
  if bool_decide (ext ∈ PLAYER_CONFIG.VIDEO_EXTENSIONS) then MEDIA_TYPE.VIDEO
  else if bool_decide (ext ∈ PLAYER_CONFIG.AUDIO_EXTENSIONS) then MEDIA_TYPE.AUDIO
  else MEDIA_TYPE.UNKNOWN.

End FileNames.

(** [[shuffled[i], shuffled[j]] = [shuffled[j], shuffled[i]]], as [swap]
    above, for the elements of any array. *)
Definition swap_cells `{Inhabited A} (a : list A) (i j : nat) : list A :=
  let ai := a !!! i in
  let aj := a !!! j in
  <[j := ai]> (<[i := aj]> a).

(** The loop of [shuffleArray], entered with the value of [i]. *)
Fixpoint shuffleArray_loop `{Inhabited A} (i : nat) (shuffled : list A)
  : M (list A) :=
  match i with
  | O => mret shuffled
  | S i' =>
      r ← Math_random;
      let j := Z.to_nat (Qfloor (r * inject_Z (Z.of_nat i + 1))) in
      shuffleArray_loop i' (swap_cells shuffled i j)
  end.

(** [shuffleArray(array)]: the argument is copied, the copy is shuffled. *)
Definition shuffleArray `{Inhabited A} (array : list A) : M (list A) :=
  let shuffled := array in
  shuffleArray_loop (length shuffled - 1) shuffled.

End Helpers.

(** ** features/PlaylistManager.js *)

Module PlaylistManager.
Import StateManager.

(** [a.splice(start, 1)]: the array left and the element removed, if any.
    A negative [start] counts from the end. *)
Definition splice_remove {A} (a : list A) (start : Z) : list A * option A :=
  let len := Z.of_nat (length a) in
  let actualStart :=
    if decide (start < 0) then Z.max (len + start) 0 else Z.min start len in
  (delete (Z.to_nat actualStart) a, a !! Z.to_nat actualStart).

(** [a.splice(start, 0, item)] *)
Definition splice_insert {A} (a : list A) (start : Z) (item : A) : list A :=
  let len := Z.of_nat (length a) in
  let actualStart :=
    if decide (start < 0) then Z.max (len + start) 0 else Z.min start len in
  take (Z.to_nat actualStart) a ++ item :: drop (Z.to_nat actualStart) a.

(** The array that [moveTrack] builds. [const [track] = ...] is [undefined]
    when nothing was removed, and is inserted all the same: the cells are
    options, [None] for [undefined]. *)
Definition moveTrack_playlist {A} (playlist : list A) (fromIndex toIndex : Z)
  : list (option A) :=
  let '(rest, track) := splice_remove playlist fromIndex in
  splice_insert (Some <$> rest) toIndex track.

(** The current index that [moveTrack] computes. *)
Definition moveTrack_index (currentIndex fromIndex toIndex : Z) : Z :=
  if decide (fromIndex = currentIndex) then toIndex
  else if decide (fromIndex < currentIndex ∧ currentIndex <= toIndex)
       then currentIndex - 1
  else if decide (currentIndex < fromIndex ∧ toIndex <= currentIndex)
       then currentIndex + 1
  else currentIndex.

Section Platform.
Variable JSON_stringify : JSValue → string.

Definition playTrack (index : Z) : M unit :=
  setCurrentTrack JSON_stringify index.

Definition setPlaylist (tracks : list Track.t) (autoPlay : bool) : M unit :=
  StateManager.setPlaylist JSON_stringify tracks;;
  if autoPlay && bool_decide (0 < length tracks)%nat then playTrack 0
  else mret tt.

Definition addTracks (tracks : list Track.t) : M unit :=
  addToPlaylist JSON_stringify tracks.

(** [stateManager.get('currentTrackIndex')] and [get('playlist')] are read
    off [this_state]. *)
Definition removeTrack (index : Z) : M unit :=
  s ← this_state;
  let currentIndex := currentTrackIndex s in
  removeFromPlaylist JSON_stringify index;;
  if decide (index = currentIndex) then
    s' ← this_state;
    let playlist := playlist s' in
    if decide (0 < length playlist)%nat then
      let newIndex := Z.min index (Z.of_nat (length playlist) - 1) in
      playTrack newIndex
    else mret tt
  else mret tt.

Definition clearPlaylist : M unit :=
  StateManager.setPlaylist JSON_stringify [].

(** [nextIndex >= 0] is false for [undefined]. *)
Definition playNext : M unit :=
  nextIndex ← getNextTrackIndex;
  match nextIndex with
  | Some n => if decide (0 <= n) then playTrack n else mret tt
  | None => mret tt
  end.

Definition playPrevious : M unit :=
  prevIndex ← getPreviousTrackIndex;
  match prevIndex with
  | Some n => if decide (0 <= n) then playTrack n else mret tt
  | None => mret tt
  end.

End Platform.

End PlaylistManager.

(** ** core/EventBus.js, continued: [once], and [emit] with the callbacks
    run *)

Module EventBusRun.
Import EventBus.

Section Callbacks.
Context {Data : Type}.

(** Whether a call of the function raises an exception. *)
Variable throws : Callback → bool.

(** The bus, and the functions that [once] has made: each wrapper, a new
    function of its own identity, with the event and the callback it
    closes over. The other callbacks do not touch the bus. *)
Record t := {
  bus : EventBus.t;
  wrappers : gmap Callback (string * Callback);
}.

(** [once(event, callback)]; [wrapper] is the identity of the new
    function. *)
Definition once (event : string) (callback wrapper : Callback) (b : t) : t :=
  {| bus := (on event wrapper (bus b)).1;
     wrappers := <[wrapper := (event, callback)]> (wrappers b) |}.

(** One turn of the [forEach] of [emit]: the listener [c] is called inside
    [try]. A wrapper calls its callback and then [this.off(event, wrapper)],
    which is skipped when the callback raises. The trace records the calls
    of callbacks that are not wrappers. *)
Definition call (data : Data) (acc : t * list (Callback * Data))
    (c : Callback) : t * list (Callback * Data) :=
  let '(b, trace) := acc in
  match wrappers b !! c with
  | Some (event, callback) =>
      if throws callback then (b, trace ++ [(callback, data)])
      else ({| bus := off event c (bus b); wrappers := wrappers b |},
            trace ++ [(callback, data)])
  | None => (b, trace ++ [(c, data)])
  end.

(** [emit(event, data)]: the bus afterwards and the calls made. *)
Definition emit (event : string) (data : Data) (b : t)
  : t * list (Callback * Data) :=
  match events (bus b) !! event with
  | Some s => foldl (call data) (b, []) s
  | None => (b, [])
  end.

End Callbacks.

End EventBusRun.

(** ** Further specifications *)

Module Spec2.
Import StateManager.

(** The rotation off, all, one, off. *)
Definition rotate (m : RepeatMode) : RepeatMode :=
  match m with OFF => ALL | ALL => ONE | ONE => OFF end.



(** What selecting a track does to the world: nothing for an index
    outside the playlist, and otherwise the index becomes current and the
    track at that index is announced. *)
Definition selected (w w' : World) : Prop :=
  w' = w ∨
  ∃ track,
    playlist (state w) !! Z.to_nat (currentTrackIndex (state w')) = Some track ∧
    0 <= currentTrackIndex (state w') < Z.of_nat (length (playlist (state w))) ∧
    published w' =
      published w ++
      [(EVENTS.TRACK_CHANGE,
        TrackChange (Some track) (currentTrackIndex (state w')))].

(** A string without a dot. *)
Definition dotless (s : string) : Prop :=
  "."%char ∉ String.list_ascii_of_string s.

End Spec2.

(** * Properties *)

Import StateManager Spec.

(** ** Arrays *)

Section Arrays.
Context `{EqDecision A}.
Implicit Types (a pre post : list A) (x : A) (k : Z).

Lemma indexOf_from_absent k a x :
  x ∉ a → indexOf_from k a x = -1.
Proof.
  revert k; induction a as [|y a IH]; intros k Hx; simpl; [done|].
  apply not_elem_of_cons in Hx as [Hne Hx].
  destruct (decide (y = x)); [congruence | by apply IH].
Qed.

Lemma indexOf_from_first k pre x post :
  x ∉ pre →
  indexOf_from k (pre ++ x :: post) x = k + Z.of_nat (length pre).
Proof.
  revert k; induction pre as [|y pre IH]; intros k Hx; simpl.
  - destruct (decide (x = x)); [lia | done].
  - apply not_elem_of_cons in Hx as [Hne Hx].
    destruct (decide (y = x)); [congruence|].
    rewrite IH by done. lia.
Qed.

(** The first occurrence of an element splits the array. *)
Lemma first_occurrence a x :
  x ∈ a → ∃ pre post, a = pre ++ x :: post ∧ x ∉ pre.
Proof.
  induction a as [|y a IH]; intros Hx; [by apply elem_of_nil in Hx|].
  destruct (decide (y = x)) as [->|Hne].
  - exists [], a. split; [done | apply not_elem_of_nil].
  - apply elem_of_cons in Hx as [Heq|Hx]; [congruence|].
    destruct (IH Hx) as (pre & post & -> & Hpre).
    exists (y :: pre), post. split; [done|].
    apply not_elem_of_cons. split; [congruence | done].
Qed.

Lemma indexOf_absent a x : x ∉ a → indexOf a x = -1.
Proof. apply indexOf_from_absent. Qed.

Lemma indexOf_first pre x post :
  x ∉ pre → indexOf (pre ++ x :: post) x = Z.of_nat (length pre).
Proof. intros H. unfold indexOf. by rewrite indexOf_from_first. Qed.

Lemma js_index_app_r pre post :
  js_index (pre ++ post) (Z.of_nat (length pre)) = js_index post 0.
Proof.
  unfold js_index. rewrite !decide_True by lia.
  rewrite Nat2Z.id. rewrite lookup_app_r by lia.
  by rewrite Nat.sub_diag.
Qed.

Lemma js_index_middle pre x post :
  js_index (pre ++ x :: post) (Z.of_nat (length pre)) = Some x.
Proof. by rewrite js_index_app_r. Qed.

Lemma js_index_head a : js_index a 0 = head a.
Proof. by destruct a. Qed.

Lemma js_index_last a : js_index a (Z.of_nat (length a) - 1) = last a.
Proof.
  unfold js_index. destruct a as [|y a]; [done|].
  rewrite decide_True by (simpl; lia).
  rewrite last_lookup. f_equal. simpl. lia.
Qed.

End Arrays.

(** ** Playlist navigation *)

Lemma shuffle_mode_test s :
  shuffleEnabled s && bool_decide (0 < length (shuffledOrder s))%nat = true ↔
  shuffle_mode s.
Proof.
  unfold shuffle_mode. rewrite andb_true_iff, bool_decide_eq_true.
  destruct (shuffledOrder s); simpl; split; intros [? ?]; split; try done; lia.
Qed.

Lemma sequential_mode_test s :
  shuffleEnabled s && bool_decide (0 < length (shuffledOrder s))%nat = false ↔
  sequential_mode s.
Proof.
  unfold sequential_mode. rewrite andb_false_iff, bool_decide_eq_false.
  destruct (shuffledOrder s); simpl; split; intros [?|?]; auto; try lia;
    try done; right; lia.
Qed.

(** C1. [getNextTrackIndex] returns -1 on an empty playlist; else the current
    index under repeat-one; else, in shuffle mode, the element that follows
    the current index in the shuffle order, wrapping to the first element of
    the order at its end under repeat-all and giving -1 there otherwise;
    else the next index, wrapping to 0 at the end of the playlist only under
    repeat-all and giving -1 there otherwise. *)
Theorem getNextTrackIndex_spec (w : World) :
  next_spec (state w) (result getNextTrackIndex w).
Proof.
  unfold result, getNextTrackIndex, mbind, M_bind, this_state; simpl.
  set (s := state w).
  destruct (decide (length (playlist s) = 0%nat)) as [Hlen|Hlen]; simpl.
  { apply next_empty. by apply nil_length_inv. }
  assert (Hne : playlist s ≠ []) by (intros H; by rewrite H in Hlen).
  destruct (decide (repeatMode s = ONE)) as [Hone|Hone]; simpl.
  { by apply next_repeat_one. }
  destruct (shuffleEnabled s && bool_decide (0 < length (shuffledOrder s))%nat)
    eqn:Hmode.
  - apply shuffle_mode_test in Hmode.
    destruct (decide (currentTrackIndex s ∈ shuffledOrder s)) as [Hin|Hout].
    + destruct (first_occurrence _ _ Hin) as (pre & post & Hsplit & Hpre).
      rewrite Hsplit. rewrite indexOf_first by done.
      rewrite length_app; simpl.
      destruct post as [|nxt post]; simpl.
      * rewrite decide_True by lia. simpl.
        destruct (repeatMode s) eqn:Hrep; simpl; [|  |done].
        -- eapply next_shuffle_end; eauto.
        -- rewrite js_index_head.
           destruct (head (pre ++ [currentTrackIndex s])) as [first|] eqn:Hhd;
             [|by destruct pre].
           eapply next_shuffle_wrap with (pre := pre); eauto.
           by rewrite Hsplit.
      * rewrite decide_False by lia. simpl.
        replace (pre ++ currentTrackIndex s :: nxt :: post)
          with ((pre ++ [currentTrackIndex s]) ++ nxt :: post)
          by by rewrite <- app_assoc.
        replace (Z.of_nat (length pre) + 1)
          with (Z.of_nat (length (pre ++ [currentTrackIndex s])))
          by (rewrite length_app; simpl; lia).
        rewrite js_index_middle.
        eapply next_shuffle_step; eauto.
    + rewrite indexOf_absent by done. simpl.
      destruct (shuffledOrder s) as [|first rest] eqn:Hord.
      { by destruct Hmode. }
      rewrite decide_False by (simpl; lia). simpl.
      eapply next_shuffle_absent; eauto; by rewrite Hord.
  - apply sequential_mode_test in Hmode.
    destruct (decide (Z.of_nat (length (playlist s)) <= currentTrackIndex s + 1));
      simpl.
    + destruct (repeatMode s) eqn:Hrep; simpl; [| |done].
      * by apply next_sequential_end.
      * by apply next_sequential_wrap.
    + apply next_sequential_step; auto; lia.
Qed.

Lemma playlist_nonempty_length (s : PlayerState) :
  playlist s ≠ [] → length (playlist s) ≠ 0%nat.
Proof. intros H Hlen. by apply nil_length_inv in Hlen. Qed.

(** [next_spec] leaves one result only: it is the one computed. *)
Lemma getNextTrackIndex_complete (w : World) (r : option Z) :
  next_spec (state w) r → r = result getNextTrackIndex w.
Proof.
  unfold result, getNextTrackIndex, mbind, M_bind, this_state; simpl.
  set (s := state w).
  inversion 1 as
    [Hnil | Hne Hone | pre nxt post Hne Hone Hmode Hsplit Hpre
    | pre first Hne Hall Hmode Hsplit Hpre Hhd
    | pre Hne Hoff Hmode Hsplit Hpre
    | first Hne Hone Hmode Hout Hhd
    | Hne Hone Hmode Hlt | Hne Hall Hmode Hge | Hne Hoff Hmode Hge ];
    subst r.
  - by rewrite Hnil.
  - rewrite decide_False by by apply playlist_nonempty_length.
    by rewrite decide_True.
  - rewrite decide_False by by apply playlist_nonempty_length.
    rewrite decide_False by done.
    apply shuffle_mode_test in Hmode. rewrite Hmode.
    rewrite Hsplit, indexOf_first, length_app by done. simpl.
    rewrite decide_False by lia. simpl.
    replace (pre ++ currentTrackIndex s :: nxt :: post)
      with ((pre ++ [currentTrackIndex s]) ++ nxt :: post)
      by by rewrite <- app_assoc.
    replace (Z.of_nat (length pre) + 1)
      with (Z.of_nat (length (pre ++ [currentTrackIndex s])))
      by (rewrite length_app; simpl; lia).
    by rewrite js_index_middle.
  - rewrite decide_False by by apply playlist_nonempty_length.
    rewrite decide_False by by rewrite Hall.
    apply shuffle_mode_test in Hmode. rewrite Hmode.
    rewrite <- Hhd, <- js_index_head.
    rewrite Hsplit, indexOf_first, length_app by done. simpl.
    rewrite decide_True by lia. simpl. by rewrite decide_True.
  - rewrite decide_False by by apply playlist_nonempty_length.
    rewrite decide_False by by rewrite Hoff.
    apply shuffle_mode_test in Hmode. rewrite Hmode.
    rewrite Hsplit, indexOf_first, length_app by done. simpl.
    rewrite decide_True by lia. simpl. by rewrite decide_False by by rewrite Hoff.
  - rewrite decide_False by by apply playlist_nonempty_length.
    rewrite decide_False by done.
    apply shuffle_mode_test in Hmode as Htest. rewrite Htest.
    rewrite indexOf_absent by done. simpl.
    rewrite <- Hhd, <- js_index_head.
    destruct Hmode as [_ Hord].
    destruct (shuffledOrder s); [done|].
    by rewrite decide_False by (simpl; lia).
  - rewrite decide_False by by apply playlist_nonempty_length.
    rewrite decide_False by done.
    apply sequential_mode_test in Hmode. rewrite Hmode.
    by rewrite decide_False by lia.
  - rewrite decide_False by by apply playlist_nonempty_length.
    rewrite decide_False by by rewrite Hall.
    apply sequential_mode_test in Hmode. rewrite Hmode.
    rewrite decide_True by lia. simpl. by rewrite decide_True.
  - rewrite decide_False by by apply playlist_nonempty_length.
    rewrite decide_False by by rewrite Hoff.
    apply sequential_mode_test in Hmode. rewrite Hmode.
    rewrite decide_True by lia. simpl. by rewrite decide_False by by rewrite Hoff.
Qed.

Lemma next_spec_deterministic (s : PlayerState) (r r' : option Z) :
  next_spec s r → next_spec s r' → r = r'.
Proof.
  intros H H'.
  rewrite (getNextTrackIndex_complete (Sample.world s) r H).
  by rewrite (getNextTrackIndex_complete (Sample.world s) r' H').
Qed.

(** The two runs of the design document: three tracks, the last one
    current, sequential mode. *)
Example next_at_end_repeat_off :
  result getNextTrackIndex
    (Sample.world (Sample.player [Sample.A; Sample.B; Sample.C] 2 OFF false []))
  = Some (-1).
Proof. reflexivity. Qed.

Example next_at_end_repeat_all :
  result getNextTrackIndex
    (Sample.world (Sample.player [Sample.A; Sample.B; Sample.C] 2 ALL false []))
  = Some 0.
Proof. reflexivity. Qed.

(** C3, as stated, does not hold: in sequential mode with repeat off, at
    position 0 of a three-track playlist, [getPreviousTrackIndex] wraps to the
    last index 2 where the claim expects -1. *)
Lemma getPreviousTrackIndex_wraps_when_repeat_off :
  let s := Sample.player [Sample.A; Sample.B; Sample.C] 0 OFF false [] in
  sequential_mode s ∧ currentTrackIndex s = 0 ∧ repeatMode s ≠ ALL ∧
  result getPreviousTrackIndex (Sample.world s) = Some 2 ∧
  result getPreviousTrackIndex (Sample.world s) ≠ Some (-1).
Proof.
  simpl. repeat split; try done. by left.
Qed.

(** C3, amended. [getPreviousTrackIndex] returns -1 on an empty playlist;
    else, in shuffle mode, the element before the current index in the
    shuffle order, wrapping to the last element of the order at its start;
    else the index before the current one, wrapping to the last index of
    the playlist at its start. No case looks at the repeat mode: both modes
    always wrap. *)
Theorem getPreviousTrackIndex_spec (w : World) :
  previous_spec (state w) (result getPreviousTrackIndex w).
Proof.
  unfold result, getPreviousTrackIndex, mbind, M_bind, this_state; simpl.
  set (s := state w).
  destruct (decide (length (playlist s) = 0%nat)) as [Hlen|Hlen]; simpl.
  { apply previous_empty. by apply nil_length_inv. }
  assert (Hne : playlist s ≠ []) by (intros H; by rewrite H in Hlen).
  destruct (shuffleEnabled s && bool_decide (0 < length (shuffledOrder s))%nat)
    eqn:Hmode; simpl.
  - apply shuffle_mode_test in Hmode.
    assert (∃ final, last (shuffledOrder s) = Some final) as [final Hfinal].
    { destruct Hmode as [_ Hord]. destruct (last (shuffledOrder s)) eqn:E; eauto.
      by apply last_None in E. }
    destruct (decide (currentTrackIndex s ∈ shuffledOrder s)) as [Hin|Hout].
    + destruct (first_occurrence _ _ Hin) as (pre0 & post & Hsplit & Hpre).
      destruct pre0 as [|p pre0 _] using rev_ind.
      * simpl in Hsplit. rewrite js_index_last, Hfinal.
        assert (indexOf (shuffledOrder s) (currentTrackIndex s) = 0) as ->.
        { rewrite Hsplit.
          apply (indexOf_first [] (currentTrackIndex s) post), not_elem_of_nil. }
        simpl. eapply previous_shuffle_wrap; eauto.
      * apply not_elem_of_app in Hpre as [Hpre Hp].
        rewrite <- app_assoc in Hsplit; simpl in Hsplit.
        rewrite Hsplit.
        replace (pre0 ++ p :: currentTrackIndex s :: post)
          with ((pre0 ++ [p]) ++ currentTrackIndex s :: post)
          by by rewrite <- app_assoc.
        rewrite indexOf_first
          by (apply not_elem_of_app; split; done).
        rewrite length_app; simpl.
        rewrite decide_True by lia.
        replace (Z.of_nat (length pre0 + 1) - 1) with (Z.of_nat (length pre0))
          by lia.
        rewrite <- app_assoc; simpl. rewrite js_index_middle.
        eapply previous_shuffle_step; eauto.
        intros Heq. apply Hp. rewrite Heq. by apply list_elem_of_singleton.
    + rewrite indexOf_absent by done. simpl.
      rewrite js_index_last, Hfinal.
      by eapply previous_shuffle_absent.
  - apply sequential_mode_test in Hmode.
    destruct (decide (0 < currentTrackIndex s)).
    + by apply previous_sequential_step.
    + apply previous_sequential_wrap; auto; lia.
Qed.

(** [previous_spec] leaves one result only: it is the one computed. *)
Lemma getPreviousTrackIndex_complete (w : World) (r : option Z) :
  previous_spec (state w) r → r = result getPreviousTrackIndex w.
Proof.
  unfold result, getPreviousTrackIndex, mbind, M_bind, this_state; simpl.
  set (s := state w).
  inversion 1 as
    [Hnil | pre prv post Hne Hmode Hsplit Hpre Hprv
    | post final Hne Hmode Hsplit Hlast
    | final Hne Hmode Hout Hlast
    | Hne Hmode Hgt | Hne Hmode Hle ];
    subst r.
  - by rewrite Hnil.
  - rewrite decide_False by by apply playlist_nonempty_length.
    apply shuffle_mode_test in Hmode. rewrite Hmode. simpl.
    rewrite Hsplit.
    replace (pre ++ prv :: currentTrackIndex s :: post)
      with ((pre ++ [prv]) ++ currentTrackIndex s :: post)
      by by rewrite <- app_assoc.
    rewrite indexOf_first.
    2:{ apply not_elem_of_app. split; [done|].
        rewrite list_elem_of_singleton. done. }
    rewrite length_app; simpl. rewrite decide_True by lia.
    replace (Z.of_nat (length pre + 1) - 1) with (Z.of_nat (length pre)) by lia.
    rewrite <- app_assoc; simpl. by rewrite js_index_middle.
  - rewrite decide_False by by apply playlist_nonempty_length.
    apply shuffle_mode_test in Hmode. rewrite Hmode. simpl.
    rewrite js_index_last, Hlast.
    assert (indexOf (shuffledOrder s) (currentTrackIndex s) = 0) as ->.
    { rewrite Hsplit.
      apply (indexOf_first [] (currentTrackIndex s) post), not_elem_of_nil. }
    done.
  - rewrite decide_False by by apply playlist_nonempty_length.
    apply shuffle_mode_test in Hmode. rewrite Hmode. simpl.
    rewrite indexOf_absent by done. simpl.
    by rewrite js_index_last.
  - rewrite decide_False by by apply playlist_nonempty_length.
    apply sequential_mode_test in Hmode. rewrite Hmode. simpl.
    by rewrite decide_True.
  - rewrite decide_False by by apply playlist_nonempty_length.
    apply sequential_mode_test in Hmode. rewrite Hmode. simpl.
    by rewrite decide_False by lia.
Qed.

Lemma previous_spec_deterministic (s : PlayerState) (r r' : option Z) :
  previous_spec s r → previous_spec s r' → r = r'.
Proof.
  intros H H'.
  rewrite (getPreviousTrackIndex_complete (Sample.world s) r H).
  by rewrite (getPreviousTrackIndex_complete (Sample.world s) r' H').
Qed.

(** ** The queries do not touch the store *)

(** C10. [get], [getCurrentTrack], [getNextTrackIndex] and
    [getPreviousTrackIndex] leave the whole world as it was: the state
    record, the storage and the list of published events. *)
Theorem queries_are_pure (w : World) (key : option string) :
  after (get key) w = w ∧
  after getCurrentTrack w = w ∧
  after getNextTrackIndex w = w ∧
  after getPreviousTrackIndex w = w.
Proof.
  unfold after, get, getCurrentTrack, getNextTrackIndex, getPreviousTrackIndex,
    mbind, M_bind, mret, M_ret, this_state.
  repeat split.
  - destruct key as [k|]; [destruct (negb (String.eqb k EmptyString))|]; done.
  - by destruct (decide (0 <= currentTrackIndex (state w))).
  - repeat (case_match; try done).
  - repeat (case_match; try done).
Qed.

(** ** [set] and the methods built on it *)

Ltac run :=
  unfold after, result, setPlaylist, addToPlaylist, removeFromPlaylist,
    setCurrentTrack, cycleRepeatMode, set, persistState, storageSet,
    mbind, M_bind, mret, M_ret, this_state, put_state, eventBus_emit;
  simpl.

Section SetFacts.
Variable JSON_stringify : JSValue → string.
Implicit Types (w : World) (u : Updates).

(** [persistState] writes to the storage and nowhere else. *)
Lemma persistState_frame u w :
  let w' := after (persistState JSON_stringify u) w in
  state w' = state w ∧ published w' = published w ∧ random w' = random w.
Proof.
  destruct w as [s [[] it] pub rnd];
    destruct (u_volume u) eqn:Hv, (u_theme u) eqn:Ht,
      (u_playbackRate u) eqn:Hp; run; rewrite ?Hv, ?Ht, ?Hp; done.
Qed.


Lemma set_silent u w :
  published (after (set JSON_stringify u None) w) = published w.
Proof.
  destruct w as [s [[] it] pub rnd];
    destruct (u_volume u) eqn:Hv, (u_theme u) eqn:Ht,
      (u_playbackRate u) eqn:Hp; run; rewrite ?Hv, ?Ht, ?Hp; done.
Qed.

(** Without one of the three persisted keys, [set] changes the state
    record only. *)
Lemma set_unpersisted u w :
  u_volume u = None → u_theme u = None → u_playbackRate u = None →
  after (set JSON_stringify u None) w =
    {| state := assign (state w) u; localStorage := localStorage w;
       published := published w; random := random w |}.
Proof. intros Hv Ht Hp. run. by rewrite Hv, Ht, Hp. Qed.

End SetFacts.

(** ** Removing a track *)

Section FilterIndex.
Context {A : Type}.
Implicit Types (a : list A) (k index : Z).

Lemma filter_index_from_before k a index :
  index < k → filter_index_from k a index = a.
Proof.
  revert k; induction a as [|x a IH]; intros k Hk; simpl; [done|].
  rewrite decide_True by lia. f_equal. apply IH. lia.
Qed.

Lemma filter_index_from_delete k a index :
  k <= index → filter_index_from k a index = delete (Z.to_nat (index - k)) a.
Proof.
  revert k; induction a as [|x a IH]; intros k Hk; simpl; [done|].
  destruct (decide (k ≠ index)) as [Hne|Heq].
  - rewrite IH by lia.
    replace (Z.to_nat (index - k)) with (S (Z.to_nat (index - (k + 1)))) by lia.
    done.
  - assert (k = index) as -> by lia. rewrite Z.sub_diag. simpl.
    apply filter_index_from_before. lia.
Qed.

(** A negative index removes nothing. *)
Lemma filter_index_negative a index : index < 0 → filter_index a index = a.
Proof. apply filter_index_from_before. Qed.

Lemma filter_index_delete a index :
  0 <= index → filter_index a index = delete (Z.to_nat index) a.
Proof.
  intros H. unfold filter_index. rewrite filter_index_from_delete by done.
  by rewrite Z.sub_0_r.
Qed.

(** Nor does an index past the end. *)
Lemma filter_index_past_end a index :
  Z.of_nat (length a) <= index → filter_index a index = a.
Proof.
  intros H. rewrite filter_index_delete by lia.
  rewrite delete_take_drop.
  rewrite take_ge, drop_ge by lia. by rewrite app_nil_r.
Qed.

Lemma filter_index_length a index :
  0 <= index < Z.of_nat (length a) →
  S (length (filter_index a index)) = length a.
Proof.
  intros H. rewrite filter_index_delete by lia.
  rewrite length_delete; [lia|].
  apply lookup_lt_is_Some. lia.
Qed.

End FilterIndex.

Section Methods.
Variable JSON_stringify : JSValue → string.
Implicit Types (w : World) (index : Z).

Local Abbreviation removeFromPlaylist := (removeFromPlaylist JSON_stringify).
Local Abbreviation setCurrentTrack := (setCurrentTrack JSON_stringify).
Local Abbreviation setPlaylist := (setPlaylist JSON_stringify).
Local Abbreviation addToPlaylist := (addToPlaylist JSON_stringify).
Local Abbreviation cycleRepeatMode := (cycleRepeatMode JSON_stringify).

Lemma removeFromPlaylist_state index w :
  let s := state w in
  let s' := state (after (removeFromPlaylist index) w) in
  playlist s' = filter_index (playlist s) index ∧
  currentTrackIndex s' =
    (if decide (index < currentTrackIndex s) then currentTrackIndex s - 1
     else if decide (index = currentTrackIndex s)
          then Z.min (currentTrackIndex s)
                 (Z.of_nat (length (filter_index (playlist s) index)) - 1)
          else currentTrackIndex s) ∧
  shuffledOrder s' = shuffledOrder s ∧
  shuffleEnabled s' = shuffleEnabled s ∧
  repeatMode s' = repeatMode s.
Proof. by run. Qed.

Lemma removeFromPlaylist_published index w :
  published (after (removeFromPlaylist index) w) =
    published w ++
    [(EVENTS.PLAYLIST_UPDATE,
      PlaylistUpdate (filter_index (playlist (state w)) index))].
Proof. by run. Qed.

(** C5. Removing the track at an index inside the playlist deletes that
    entry and no other; the current index is decremented when the removed
    track was before it, is clamped to the new last index when the removed
    track was the current one (which is -1 once the playlist is empty, and
    an index of a remaining track otherwise), and is unchanged when the
    removed track was behind it. From a current index that was -1 or valid,
    an emptied playlist always leaves the current index -1. *)
Theorem removeFromPlaylist_in_range index w :
  0 <= index < Z.of_nat (length (playlist (state w))) →
  let s := state w in
  let s' := state (after (removeFromPlaylist index) w) in
  playlist s' = delete (Z.to_nat index) (playlist s) ∧
  S (length (playlist s')) = length (playlist s) ∧
  (index < currentTrackIndex s →
     currentTrackIndex s' = currentTrackIndex s - 1) ∧
  (index = currentTrackIndex s →
     currentTrackIndex s' =
       Z.min (currentTrackIndex s) (Z.of_nat (length (playlist s')) - 1) ∧
     (playlist s' = [] → currentTrackIndex s' = -1) ∧
     (playlist s' ≠ [] → has_current s')) ∧
  (currentTrackIndex s < index →
     currentTrackIndex s' = currentTrackIndex s) ∧
  (index_inv s → playlist s' = [] → currentTrackIndex s' = -1).
Proof.
  intros Hrange s s'.
  destruct (removeFromPlaylist_state index w) as (Hpl & Hcur & _).
  fold s s' in Hpl, Hcur.
  pose proof (filter_index_length (playlist s) index Hrange) as Hlen.
  rewrite <- Hpl in Hlen, Hcur.
  split; [|split; [|split; [|split; [|split]]]].
  - rewrite Hpl. apply filter_index_delete. lia.
  - done.
  - intros Hlt. by rewrite Hcur, decide_True.
  - intros Heq. rewrite Hcur, decide_False, decide_True by lia.
    split; [done|]. split.
    + intros Hnil. rewrite Hnil in *. simpl in *. lia.
    + intros Hne. unfold has_current. rewrite Hcur.
      rewrite decide_False, decide_True by lia.
      destruct (playlist s'); [done|]. simpl in *. lia.
  - intros Hgt. by rewrite Hcur, !decide_False by lia.
  - intros Hinv Hnil. rewrite Hcur. rewrite Hnil in *. simpl in Hlen.
    unfold index_inv in Hinv. unfold s in *.
    repeat case_decide; simpl; lia.
Qed.

End Methods.

(** ** The shuffle order *)

(** [Math.floor(Math.random() * n)] is one of [0, ..., n-1]. *)
Lemma random_index_in_range (r : Q) (n : Z) :
  (0 <= r)%Q → (r < 1)%Q → 0 < n →
  0 <= Qfloor (r * inject_Z n) < n.
Proof.
  intros Hr0 Hr1 Hn.
  assert (Hn' : (inject_Z 0 < inject_Z n)%Q) by (by rewrite <- Zlt_Qlt).
  split.
  - change 0 with (Qfloor 0). apply Qfloor_resp_le.
    apply Qmult_le_0_compat; [done | by apply Qlt_le_weak].
  - rewrite Zlt_Qlt. eapply Qle_lt_trans; [apply Qfloor_le|].
    rewrite <- (Qmult_1_l (inject_Z n)) at 2.
    by apply Qmult_lt_compat_r.
Qed.

Lemma swap_permutation (a : list Z) (i j : nat) :
  (i < length a)%nat → (j < length a)%nat → swap a i j ≡ₚ a.
Proof.
  intros Hi Hj. unfold swap.
  apply lookup_lt_is_Some in Hi as [ai Hai], Hj as [aj Haj].
  rewrite (list_lookup_total_correct _ _ _ Hai).
  rewrite (list_lookup_total_correct _ _ _ Haj).
  by apply Permutation_insert_swap.
Qed.

Lemma swap_length (a : list Z) (i j : nat) : length (swap a i j) = length a.
Proof. unfold swap. by rewrite !length_insert. Qed.

Lemma random_ok_tail (w : World) :
  random_ok w → random_ok (Math_random w).2.
Proof. intros H k. apply (H (S k)). Qed.

Lemma shuffle_loop_step (i : nat) (indices : list Z) (w : World) :
  shuffle_loop (S i) indices w =
    shuffle_loop i
      (swap indices (S i)
         (Z.to_nat (Qfloor (random w 0 * inject_Z (Z.of_nat (S i) + 1)))))
      (Math_random w).2.
Proof. reflexivity. Qed.

(** The loop only consumes random numbers. *)
Lemma shuffle_loop_frame (i : nat) (indices : list Z) (w : World) :
  let w' := after (shuffle_loop i indices) w in
  state w' = state w ∧ localStorage w' = localStorage w ∧
  published w' = published w.
Proof.
  revert indices w. induction i as [|i IH]; intros indices w; [done|].
  unfold after in *. rewrite shuffle_loop_step.
  apply (IH _ (Math_random w).2).
Qed.

Lemma shuffle_loop_random_ok (i : nat) (indices : list Z) (w : World) :
  random_ok w → random_ok (after (shuffle_loop i indices) w).
Proof.
  revert indices w. induction i as [|i IH]; intros indices w Hok; [done|].
  unfold after in *. rewrite shuffle_loop_step.
  apply IH. by apply random_ok_tail.
Qed.

(** Every swap of the loop stays inside the array, so the loop permutes. *)
Lemma shuffle_loop_permutation (i : nat) (indices : list Z) (w : World) :
  random_ok w → (i < length indices)%nat →
  result (shuffle_loop i indices) w ≡ₚ indices.
Proof.
  revert indices w. induction i as [|i IH]; intros indices w Hok Hi; [done|].
  unfold result in *. rewrite shuffle_loop_step.
  destruct (Hok 0%nat) as [Hr0 Hr1].
  pose proof (random_index_in_range _ (Z.of_nat (S i) + 1) Hr0 Hr1 ltac:(lia))
    as Hj.
  assert (Hj' : (Z.to_nat (Qfloor (random w 0 * inject_Z (Z.of_nat (S i) + 1)))
                  < S (S i))%nat) by lia.
  rewrite IH.
  - apply swap_permutation; lia.
  - by apply random_ok_tail.
  - rewrite swap_length. lia.
Qed.

Lemma index_map_valid_indices {A} (a : list A) :
  index_map a = valid_indices (length a).
Proof. apply imap_seq_0. Qed.

Lemma valid_indices_NoDup (n : nat) : NoDup (valid_indices n).
Proof.
  unfold valid_indices. apply NoDup_fmap_2; [apply _ | apply NoDup_seq].
Qed.

Lemma elem_of_valid_indices (n : nat) (i : Z) :
  i ∈ valid_indices n ↔ 0 <= i < Z.of_nat n.
Proof.
  unfold valid_indices. rewrite list_elem_of_fmap. split.
  - intros (k & -> & Hk). apply elem_of_seq in Hk. lia.
  - intros H. exists (Z.to_nat i). split; [lia|]. apply elem_of_seq. lia.
Qed.

(** Taking one index out of a duplicate-free list and putting it in front. *)
Lemma remove_then_prepend (l : list Z) (c : Z) :
  NoDup l → c ∈ l → c :: filter (fun i => i ≠ c) l ≡ₚ l.
Proof.
  induction 1 as [|x l Hx Hnd IH]; intros Hc; [by apply elem_of_nil in Hc|].
  rewrite filter_cons. destruct (decide (x = c)) as [->|Hne].
  - rewrite decide_False by (intros H; by apply H).
    f_equiv. clear IH Hc. induction l as [|y l IHl]; [done|].
    apply not_elem_of_cons in Hx as [Hy Hx]. apply NoDup_cons in Hnd as [_ Hnd].
    rewrite filter_cons, decide_True by done. f_equiv. by apply IHl.
  - rewrite decide_True by done.
    apply elem_of_cons in Hc as [Hc|Hc]; [congruence|].
    rewrite Permutation_swap. f_equiv. by apply IH.
Qed.

Section Shuffle.
Variable JSON_stringify : JSValue → string.
Implicit Types (w : World).

Local Abbreviation toggleShuffle := (toggleShuffle JSON_stringify).

Lemma toggleShuffle_off w :
  shuffleEnabled (state w) = true →
  after toggleShuffle w =
    {| state :=
         assign (state w)
           {| u_playbackRate := None; u_volume := None; u_playlist := None;
              u_currentTrackIndex := None; u_shuffleEnabled := Some false;
              u_repeatMode := None; u_shuffledOrder := Some [];
              u_theme := None; u_others := ∅ |};
       localStorage := localStorage w;
       published :=
         published w ++ [(EVENTS.SHUFFLE_TOGGLE, ShuffleToggle false)];
       random := random w |}.
Proof.
  intros Hsh.
  unfold after, toggleShuffle, StateManager.toggleShuffle, mbind, M_bind,
    this_state.
  by rewrite Hsh.
Qed.

Lemma toggleShuffle_on w :
  shuffleEnabled (state w) = false →
  let shuffled :=
    shuffle_loop (length (other_indices (state w)) - 1)
      (other_indices (state w)) w in
  after toggleShuffle w =
    {| state :=
         assign (state w)
           {| u_playbackRate := None; u_volume := None; u_playlist := None;
              u_currentTrackIndex := None; u_shuffleEnabled := Some true;
              u_repeatMode := None;
              u_shuffledOrder :=
                Some (currentTrackIndex (state w) :: shuffled.1);
              u_theme := None; u_others := ∅ |};
       localStorage := localStorage w;
       published :=
         published w ++ [(EVENTS.SHUFFLE_TOGGLE, ShuffleToggle true)];
       random := random shuffled.2 |}.
Proof.
  intros Hsh shuffled.
  destruct (shuffle_loop_frame (length (other_indices (state w)) - 1)
              (other_indices (state w)) w) as (Hst & Hls & Hpub).
  unfold after in Hst, Hls, Hpub. fold shuffled in Hst, Hls, Hpub.
  rewrite <- Hst at 1. rewrite <- Hls, <- Hpub.
  unfold after, toggleShuffle, StateManager.toggleShuffle, mbind, M_bind,
    this_state.
  rewrite Hsh. change (negb false) with true. cbv beta iota.
  fold (other_indices (state w)). fold shuffled.
  by destruct shuffled as [order w1].
Qed.


Lemma toggleShuffle_enables w :
  shuffleEnabled (state w) = false → has_current (state w) → random_ok w →
  let s' := state (after toggleShuffle w) in
  shuffleEnabled s' = true ∧
  shuffledOrder s' ≡ₚ valid_indices (length (playlist (state w))) ∧
  head (shuffledOrder s') = Some (currentTrackIndex (state w)).
Proof.
  intros Hsh Hcur Hok. rewrite (toggleShuffle_on w Hsh). simpl.
  repeat split; try done.
  set (idx := other_indices (state w)).
  assert (Hperm : (shuffle_loop (length idx - 1) idx w).1 ≡ₚ idx).
  { destruct idx as [|i idx'] eqn:Hidx; [done|].
    apply shuffle_loop_permutation; [done | simpl; lia]. }
  rewrite Hperm. unfold idx, other_indices.
  rewrite index_map_valid_indices.
  apply remove_then_prepend; [apply valid_indices_NoDup|].
  by apply elem_of_valid_indices.
Qed.

Lemma toggleShuffle_disables w :
  shuffleEnabled (state w) = true →
  let s' := state (after toggleShuffle w) in
  shuffleEnabled s' = false ∧ shuffledOrder s' = [].
Proof. intros Hsh. by rewrite (toggleShuffle_off w Hsh). Qed.

(** C2, as stated, does not hold: with a playlist of one track and no track
    selected (current index -1), enabling shuffle gives the order [-1; 0],
    which is no permutation of the valid indices [0]. *)
Lemma toggleShuffle_without_current_track :
  let w := Sample.world (Sample.player [Sample.A] (-1) OFF false []) in
  let s' := state (after (StateManager.toggleShuffle Sample.JSON_stringify) w) in
  playlist (state w) ≠ [] ∧ shuffleEnabled (state w) = false ∧
  shuffledOrder s' = [-1; 0] ∧
  ¬ shuffledOrder s' ≡ₚ valid_indices (length (playlist (state w))).
Proof.
  repeat split; try done.
  intros Hperm. apply Permutation_length in Hperm. discriminate Hperm.
Qed.

(** C2, amended. When shuffle is disabled and the current index points at a
    track, [toggleShuffle] enables shuffle with a shuffle order that is a
    permutation of all the indices of the playlist and starts with the
    current index. When shuffle is enabled, [toggleShuffle] disables it and
    empties the shuffle order. *)
Theorem toggleShuffle_order w :
  (shuffleEnabled (state w) = false → has_current (state w) → random_ok w →
   let s' := state (after toggleShuffle w) in
   shuffleEnabled s' = true ∧
   shuffledOrder s' ≡ₚ valid_indices (length (playlist (state w))) ∧
   head (shuffledOrder s') = Some (currentTrackIndex (state w))) ∧
  (shuffleEnabled (state w) = true →
   let s' := state (after toggleShuffle w) in
   shuffleEnabled s' = false ∧ shuffledOrder s' = []).
Proof. split; [apply toggleShuffle_enables | apply toggleShuffle_disables]. Qed.

End Shuffle.

Lemma sample_random_ok (s : PlayerState) : random_ok (Sample.world s).
Proof. intros k. split; simpl; unfold Qle, Qlt; simpl; lia. Qed.

(** Five tracks, the first one current, every draw 1/2: the loop swaps
    positions 3 and 2, then 2 and 1, then 1 with itself. *)
Example toggleShuffle_five_tracks :
  let w := Sample.world
             (Sample.player
                [Sample.A; Sample.B; Sample.C; Sample.A; Sample.B] 0 OFF false [])
  in
  shuffledOrder (state (after (toggleShuffle Sample.JSON_stringify) w))
  = [0; 1; 4; 2; 3].
Proof. reflexivity. Qed.

(** Three tracks, the second one current: shuffle turned on, and turned
    off again from an order in use. *)
Lemma toggleShuffle_order_witness :
  (let w := Sample.world
              (Sample.player [Sample.A; Sample.B; Sample.C] 1 OFF false []) in
   let s' := state (after (toggleShuffle Sample.JSON_stringify) w) in
   shuffleEnabled s' = true ∧
   shuffledOrder s' ≡ₚ valid_indices 3 ∧
   head (shuffledOrder s') = Some 1) ∧
  (let w := Sample.world
              (Sample.player [Sample.A; Sample.B; Sample.C] 1 OFF true [1; 2; 0]) in
   let s' := state (after (toggleShuffle Sample.JSON_stringify) w) in
   shuffleEnabled s' = false ∧ shuffledOrder s' = []).
Proof.
  split.
  - apply (toggleShuffle_order Sample.JSON_stringify
             (Sample.world
                (Sample.player [Sample.A; Sample.B; Sample.C] 1 OFF false []))).
    + reflexivity.
    + unfold has_current; simpl; lia.
    + apply sample_random_ok.
  - apply (toggleShuffle_order Sample.JSON_stringify
             (Sample.world
                (Sample.player [Sample.A; Sample.B; Sample.C] 1 OFF true [1; 2; 0]))).
    reflexivity.
Defined.

(** ** What each mutation leaves behind *)

Section Mutations.
Variable JSON_stringify : JSValue → string.
Implicit Types (w : World) (index : Z) (tracks : list Track.t).

Local Abbreviation removeFromPlaylist := (removeFromPlaylist JSON_stringify).
Local Abbreviation setCurrentTrack := (setCurrentTrack JSON_stringify).
Local Abbreviation setPlaylist := (setPlaylist JSON_stringify).
Local Abbreviation addToPlaylist := (addToPlaylist JSON_stringify).
Local Abbreviation cycleRepeatMode := (cycleRepeatMode JSON_stringify).
Local Abbreviation toggleShuffle := (toggleShuffle JSON_stringify).

Lemma setPlaylist_state tracks w :
  let s := state w in
  let s' := state (after (setPlaylist tracks) w) in
  playlist s' = tracks ∧
  currentTrackIndex s' = (if decide (0 < length tracks)%nat then 0 else -1) ∧
  shuffledOrder s' = shuffledOrder s ∧
  shuffleEnabled s' = shuffleEnabled s ∧
  repeatMode s' = repeatMode s.
Proof. by run. Qed.

Lemma addToPlaylist_setPlaylist tracks w :
  after (addToPlaylist tracks) w =
  after (setPlaylist (playlist (state w) ++ tracks)) w.
Proof. by run. Qed.

Lemma setCurrentTrack_in_range index w :
  0 <= index < Z.of_nat (length (playlist (state w))) →
  let s := state w in
  let s' := state (after (setCurrentTrack index) w) in
  playlist s' = playlist s ∧
  currentTrackIndex s' = index ∧
  shuffledOrder s' = shuffledOrder s ∧
  shuffleEnabled s' = shuffleEnabled s ∧
  repeatMode s' = repeatMode s ∧
  published (after (setCurrentTrack index) w) =
    published w ++
    [(EVENTS.TRACK_CHANGE, TrackChange (js_index (playlist s) index) index)].
Proof. intros H. run. by rewrite decide_True. Qed.

(** [setCurrentTrack] ignores an index outside the playlist: nothing in the
    world changes, nothing is published. *)
Lemma setCurrentTrack_out_of_range index w :
  ¬ 0 <= index < Z.of_nat (length (playlist (state w))) →
  after (setCurrentTrack index) w = w.
Proof. intros H. run. by rewrite decide_False. Qed.

Lemma cycleRepeatMode_state w :
  let s := state w in
  let s' := state (after cycleRepeatMode w) in
  playlist s' = playlist s ∧
  currentTrackIndex s' = currentTrackIndex s ∧
  shuffledOrder s' = shuffledOrder s ∧
  shuffleEnabled s' = shuffleEnabled s ∧
  repeatMode s' =
    match repeatMode s with OFF => ALL | ALL => ONE | ONE => OFF end.
Proof. run. by destruct (repeatMode (state w)). Qed.

Lemma toggleShuffle_keeps_playlist w :
  let s := state w in
  let s' := state (after toggleShuffle w) in
  playlist s' = playlist s ∧ currentTrackIndex s' = currentTrackIndex s.
Proof.
  destruct (shuffleEnabled (state w)) eqn:Hsh.
  - by rewrite (toggleShuffle_off _ w Hsh).
  - by rewrite (toggleShuffle_on _ w Hsh).
Qed.

(** ** The index invariant *)

Lemma index_inv_same (s s' : PlayerState) :
  playlist s' = playlist s → currentTrackIndex s' = currentTrackIndex s →
  index_inv s → index_inv s'.
Proof. unfold index_inv. by intros -> ->. Qed.

(** Every mutation keeps [currentTrackIndex] at -1 or inside the playlist,
    [removeFromPlaylist] included unless it is given an index below -1
    while no track is selected. *)
Lemma index_inv_preserved w :
  index_inv (state w) →
  (∀ tracks, index_inv (state (after (setPlaylist tracks) w))) ∧
  (∀ tracks, index_inv (state (after (addToPlaylist tracks) w))) ∧
  (∀ index, index_inv (state (after (setCurrentTrack index) w))) ∧
  index_inv (state (after toggleShuffle w)) ∧
  index_inv (state (after cycleRepeatMode w)) ∧
  (∀ index, -1 <= index ∨ 0 <= currentTrackIndex (state w) →
            index_inv (state (after (removeFromPlaylist index) w))).
Proof.
  intros Hinv.
  assert (Hset : ∀ tracks, index_inv (state (after (setPlaylist tracks) w))).
  { intros tracks. destruct (setPlaylist_state tracks w) as (Hpl & Hcur & _).
    unfold index_inv. rewrite Hpl, Hcur.
    destruct (decide (0 < length tracks)%nat); [right; lia | by left]. }
  split; [done|]. split; [|split; [|split; [|split]]].
  - intros tracks. by rewrite addToPlaylist_setPlaylist.
  - intros index.
    destruct (decide (0 <= index < Z.of_nat (length (playlist (state w)))))
      as [Hin|Hout].
    + destruct (setCurrentTrack_in_range index w Hin) as (Hpl & Hcur & _).
      unfold index_inv. rewrite Hpl, Hcur. by right.
    + by rewrite setCurrentTrack_out_of_range.
  - destruct (toggleShuffle_keeps_playlist w) as (Hpl & Hcur).
    by apply (index_inv_same _ _ Hpl Hcur).
  - destruct (cycleRepeatMode_state w) as (Hpl & Hcur & _).
    by apply (index_inv_same _ _ Hpl Hcur).
  - intros index Hidx.
    destruct (removeFromPlaylist_state JSON_stringify index w)
      as (Hpl & Hcur & _).
    unfold index_inv in *. rewrite Hpl, Hcur. clear Hpl Hcur.
    set (s := state w) in *.
    destruct (decide (index < 0)) as [Hneg|Hpos].
    { rewrite filter_index_negative by done.
      repeat case_decide; lia. }
    destruct (decide (Z.of_nat (length (playlist s)) <= index)) as [Hbig|Hin].
    { rewrite filter_index_past_end by done.
      repeat case_decide; lia. }
    pose proof (filter_index_length (playlist s) index ltac:(lia)) as Hlen.
    repeat case_decide; lia.
Qed.

(** C6. The index invariant holds in the initial state, and
    [removeFromPlaylist(-2)] breaks it there: nothing is removed, yet the
    current index goes from -1 to -2. *)
Theorem removeFromPlaylist_breaks_index_invariant :
  let w := Sample.world initial_state in
  let w' := after (StateManager.removeFromPlaylist Sample.JSON_stringify (-2)) w in
  index_inv (state w) ∧
  playlist (state w') = playlist (state w) ∧
  currentTrackIndex (state w') = -2 ∧
  ¬ index_inv (state w').
Proof.
  repeat split; try done.
  - by left.
  - unfold index_inv. simpl. lia.
Qed.

(** C7. [removeFromPlaylist] does not ignore an index outside the playlist:
    with two tracks, the second one current, [removeFromPlaylist(-1)]
    removes nothing, yet moves the current index to 0 and publishes a
    playlist update. *)
Theorem removeFromPlaylist_negative_index_not_ignored :
  let w := Sample.world (Sample.player [Sample.A; Sample.B] 1 OFF false []) in
  let w' := after (StateManager.removeFromPlaylist Sample.JSON_stringify (-1)) w in
  playlist (state w') = playlist (state w) ∧
  currentTrackIndex (state w) = 1 ∧
  currentTrackIndex (state w') = 0 ∧
  published w = [] ∧
  published w' =
    [(EVENTS.PLAYLIST_UPDATE, PlaylistUpdate [Sample.A; Sample.B])].
Proof. repeat split. Qed.

(** An index past the end leaves the playlist and, under the index
    invariant, the current index alone, but is published all the same. *)
Lemma removeFromPlaylist_past_end index w :
  index_inv (state w) →
  Z.of_nat (length (playlist (state w))) <= index →
  let w' := after (removeFromPlaylist index) w in
  playlist (state w') = playlist (state w) ∧
  currentTrackIndex (state w') = currentTrackIndex (state w) ∧
  published w' =
    published w ++
    [(EVENTS.PLAYLIST_UPDATE, PlaylistUpdate (playlist (state w)))].
Proof.
  intros Hinv Hbig w'.
  destruct (removeFromPlaylist_state JSON_stringify index w) as (Hpl & Hcur & _).
  pose proof (removeFromPlaylist_published JSON_stringify index w) as Hpub.
  fold w' in Hpl, Hcur, Hpub.
  rewrite filter_index_past_end in Hpl, Hcur, Hpub by done.
  repeat split; try done.
  rewrite Hcur. unfold index_inv in Hinv. repeat case_decide; lia.
Qed.

End Mutations.

(** ** The shuffle invariant *)

(** C4, as stated, does not hold: [setPlaylist] replaces the playlist and
    keeps the shuffle order. With two tracks and the order [0; 1], setting
    a playlist of one track leaves an order that is no permutation of its
    only index. *)
Lemma setPlaylist_breaks_shuffle_invariant :
  let w := Sample.world
             (Sample.player [Sample.A; Sample.B] 0 OFF true [0; 1]) in
  let w' := after (setPlaylist Sample.JSON_stringify [Sample.C]) w in
  shuffle_inv (state w) ∧ ¬ shuffle_inv (state w').
Proof.
  split.
  - by right.
  - intros [Hnil|Hperm]; [discriminate Hnil|].
    apply Permutation_length in Hperm. discriminate Hperm.
Qed.

Section ShuffleInvariant.
Variable JSON_stringify : JSValue → string.
Implicit Types (w : World) (index : Z) (tracks : list Track.t).

Local Abbreviation removeFromPlaylist := (removeFromPlaylist JSON_stringify).
Local Abbreviation setCurrentTrack := (setCurrentTrack JSON_stringify).
Local Abbreviation setPlaylist := (setPlaylist JSON_stringify).
Local Abbreviation addToPlaylist := (addToPlaylist JSON_stringify).
Local Abbreviation cycleRepeatMode := (cycleRepeatMode JSON_stringify).
Local Abbreviation toggleShuffle := (toggleShuffle JSON_stringify).

Lemma shuffle_inv_same (s s' : PlayerState) :
  shuffledOrder s' = shuffledOrder s →
  length (playlist s') = length (playlist s) →
  shuffle_inv s → shuffle_inv s'.
Proof. unfold shuffle_inv. by intros -> ->. Qed.

Lemma shuffle_inv_empty (s : PlayerState) :
  shuffledOrder s = [] → shuffle_inv s.
Proof. by left. Qed.

(** C4, amended. From a state where the shuffle order is empty or a
    permutation of the indices of the playlist: [setCurrentTrack] and
    [cycleRepeatMode] keep it so; [toggleShuffle] does when it disables
    shuffle or when the current index points at a track; [setPlaylist],
    [addToPlaylist] and [removeFromPlaylist] never write the shuffle
    order, and keep the invariant when the order is empty or the playlist
    keeps its length. *)
Theorem shuffle_inv_preserved w :
  shuffle_inv (state w) →
  (∀ index, shuffle_inv (state (after (setCurrentTrack index) w))) ∧
  shuffle_inv (state (after cycleRepeatMode w)) ∧
  (random_ok w → shuffleEnabled (state w) = true ∨ has_current (state w) →
   shuffle_inv (state (after toggleShuffle w))) ∧
  (∀ tracks,
     let s' := state (after (setPlaylist tracks) w) in
     shuffledOrder s' = shuffledOrder (state w) ∧
     (shuffledOrder (state w) = [] ∨
      length tracks = length (playlist (state w)) → shuffle_inv s')) ∧
  (∀ tracks,
     let s' := state (after (addToPlaylist tracks) w) in
     shuffledOrder s' = shuffledOrder (state w) ∧
     (shuffledOrder (state w) = [] ∨ tracks = [] → shuffle_inv s')) ∧
  (∀ index,
     let s' := state (after (removeFromPlaylist index) w) in
     shuffledOrder s' = shuffledOrder (state w) ∧
     (shuffledOrder (state w) = [] ∨
      ¬ 0 <= index < Z.of_nat (length (playlist (state w))) →
      shuffle_inv s')).
Proof.
  intros Hinv.
  assert (Hset : ∀ tracks,
     let s' := state (after (setPlaylist tracks) w) in
     shuffledOrder s' = shuffledOrder (state w) ∧
     (shuffledOrder (state w) = [] ∨
      length tracks = length (playlist (state w)) → shuffle_inv s')).
  { intros tracks s'.
    destruct (setPlaylist_state JSON_stringify tracks w) as (Hpl & _ & Hord & _).
    fold s' in Hpl, Hord. split; [done|]. intros [Hnil|Hlen].
    - apply shuffle_inv_empty. by rewrite Hord.
    - apply (shuffle_inv_same (state w)); [done | by rewrite Hpl | done]. }
  split; [|split; [|split; [|split; [done|split]]]].
  - intros index.
    destruct (decide (0 <= index < Z.of_nat (length (playlist (state w)))))
      as [Hin|Hout].
    + destruct (setCurrentTrack_in_range JSON_stringify index w Hin)
        as (Hpl & _ & Hord & _).
      apply (shuffle_inv_same (state w)); [done | by rewrite Hpl | done].
    + by rewrite setCurrentTrack_out_of_range.
  - destruct (cycleRepeatMode_state JSON_stringify w) as (Hpl & _ & Hord & _).
    apply (shuffle_inv_same (state w)); [done | by rewrite Hpl | done].
  - intros Hok Hcase.
    destruct (shuffleEnabled (state w)) eqn:Hsh.
    + apply shuffle_inv_empty.
      by apply (toggleShuffle_disables JSON_stringify w).
    + destruct Hcase as [?|Hcur]; [done|].
      destruct (toggleShuffle_enables JSON_stringify w Hsh Hcur Hok)
        as (_ & Hperm & _).
      destruct (toggleShuffle_keeps_playlist JSON_stringify w) as (Hpl & _).
      right. by rewrite Hpl.
  - intros tracks s'. unfold s'. rewrite addToPlaylist_setPlaylist.
    destruct (Hset (playlist (state w) ++ tracks)) as (Hord & Hkeep).
    split; [done|]. intros [Hnil| ->]; apply Hkeep; [by left|right].
    by rewrite app_nil_r.
  - intros index s'.
    destruct (removeFromPlaylist_state JSON_stringify index w)
      as (Hpl & _ & Hord & _).
    fold s' in Hpl, Hord. split; [done|]. intros [Hnil|Hout].
    + apply shuffle_inv_empty. by rewrite Hord.
    + apply (shuffle_inv_same (state w)); [done | | done].
      rewrite Hpl. f_equal.
      destruct (decide (index < 0)).
      * by apply filter_index_negative.
      * apply filter_index_past_end. lia.
Qed.

End ShuffleInvariant.

(** Two tracks in shuffle mode with the order [0; 1]. *)
Lemma shuffle_inv_preserved_witness :
  let w := Sample.world
             (Sample.player [Sample.A; Sample.B] 0 OFF true [0; 1]) in
  shuffle_inv (state w) ∧
  shuffle_inv (state (after (setCurrentTrack Sample.JSON_stringify 1) w)) ∧
  shuffle_inv (state (after (cycleRepeatMode Sample.JSON_stringify) w)) ∧
  shuffle_inv (state (after (toggleShuffle Sample.JSON_stringify) w)) ∧
  shuffle_inv (state (after (removeFromPlaylist Sample.JSON_stringify 7) w)).
Proof.
  intros w.
  assert (Hinv : shuffle_inv (state w)) by (by right).
  destruct (shuffle_inv_preserved Sample.JSON_stringify w Hinv)
    as (Hcur & Hrep & Htog & _ & _ & Hrem).
  split; [done|]. split; [apply Hcur|]. split; [apply Hrep|]. split.
  - apply Htog; [apply sample_random_ok | by left].
  - apply (Hrem 7). right. simpl. lia.
Defined.

(** ** The event bus *)

Section EventBusFacts.
Import EventBus.
Implicit Types (bus : EventBus.t) (event : string) (cb : Callback).

Lemma set_add_member (s : list Callback) cb : cb ∈ set_add s cb.
Proof.
  unfold set_add. destruct (decide (cb ∈ s)); [done|].
  apply elem_of_app. right. by apply list_elem_of_singleton.
Qed.

Lemma set_add_idempotent (s : list Callback) cb :
  set_add (set_add s cb) cb = set_add s cb.
Proof.
  unfold set_add at 1. by rewrite decide_True by apply set_add_member.
Qed.

Lemma set_add_NoDup (s : list Callback) cb : NoDup s → NoDup (set_add s cb).
Proof.
  intros Hnd. unfold set_add. destruct (decide (cb ∈ s)); [done|].
  apply NoDup_app. split; [done|]. split.
  - intros x Hx Hx'. apply list_elem_of_singleton in Hx'. by subst.
  - apply NoDup_singleton.
Qed.

Lemma set_delete_absent (s : list Callback) cb :
  cb ∉ s → set_delete s cb = s.
Proof.
  intros Hcb. unfold set_delete. induction s as [|x s IH]; [done|].
  apply not_elem_of_cons in Hcb as [Hne Hcb].
  rewrite filter_cons, decide_True by done. f_equal. by apply IH.
Qed.

Lemma set_delete_not_member (s : list Callback) cb : cb ∉ set_delete s cb.
Proof. unfold set_delete. rewrite list_elem_of_filter. by intros [? _]. Qed.

Lemma set_delete_length (s : list Callback) cb :
  NoDup s → cb ∈ s → S (length (set_delete s cb)) = length s.
Proof.
  unfold set_delete. induction 1 as [|x s Hx Hnd IH]; intros Hcb.
  - by apply elem_of_nil in Hcb.
  - rewrite filter_cons. destruct (decide (x ≠ cb)) as [Hne|Heq].
    + apply elem_of_cons in Hcb as [?|Hcb]; [congruence|].
      simpl. f_equal. by apply IH.
    + assert (x = cb) as -> by (destruct (decide (x = cb)); [done | tauto]).
      simpl. f_equal. f_equal. exact (set_delete_absent s cb Hx).
Qed.

Lemma calls_fmap {Data} (s : list Callback) cb (data : Data) :
  calls cb ((fun callback => (callback, data)) <$> s) =
  length (filter (fun c => c = cb) s).
Proof.
  unfold calls. induction s as [|x s IH]; [done|].
  rewrite fmap_cons, !filter_cons. simpl.
  destruct (decide (x = cb)); simpl; by rewrite IH.
Qed.

Lemma count_absent (s : list Callback) cb :
  cb ∉ s → length (filter (fun c => c = cb) s) = 0%nat.
Proof.
  induction s as [|x s IH]; intros Hcb; [done|].
  apply not_elem_of_cons in Hcb as [Hne Hcb].
  rewrite filter_cons, decide_False by congruence. by apply IH.
Qed.

Lemma count_NoDup (s : list Callback) cb :
  NoDup s → cb ∈ s → length (filter (fun c => c = cb) s) = 1%nat.
Proof.
  induction 1 as [|x s Hx Hnd IH]; intros Hcb.
  - by apply elem_of_nil in Hcb.
  - rewrite filter_cons. destruct (decide (x = cb)) as [->|Hne].
    + simpl. by rewrite count_absent.
    + apply elem_of_cons in Hcb as [?|Hcb]; [congruence | by apply IH].
Qed.

(** [on] puts the callback into the set of its event. *)
Lemma on_events event cb bus :
  events (on event cb bus).1 =
  <[event := set_add (listeners event bus) cb]> (events bus).
Proof.
  unfold on, listeners. simpl.
  destruct (decide (is_Some (events bus !! event))) as [[s Hs]|Hnone].
  - rewrite Hs. simpl. apply map_eq. intros e.
    destruct (decide (event = e)) as [<-|Hne].
    + by rewrite lookup_alter_eq, lookup_insert_eq, Hs.
    + by rewrite lookup_alter_ne, lookup_insert_ne.
  - apply eq_None_not_Some in Hnone. rewrite Hnone. simpl.
    apply map_eq. intros e.
    destruct (decide (event = e)) as [<-|Hne].
    + by rewrite lookup_alter_eq, !lookup_insert_eq.
    + by rewrite lookup_alter_ne, !lookup_insert_ne.
Qed.

Lemma on_listeners event cb bus :
  listeners event (on event cb bus).1 = set_add (listeners event bus) cb.
Proof. unfold listeners at 1. by rewrite on_events, lookup_insert_eq. Qed.

Lemma bus_eq bus bus' : events bus = events bus' → bus = bus'.
Proof. destruct bus, bus'. simpl. by intros ->. Qed.

Lemma on_again event cb bus :
  (on event cb (on event cb bus).1).1 = (on event cb bus).1.
Proof.
  apply bus_eq. rewrite (on_events event cb (on event cb bus).1).
  rewrite on_listeners, set_add_idempotent, on_events.
  apply insert_insert_eq.
Qed.

Lemma on_wf event cb bus : wf bus → wf (on event cb bus).1.
Proof.
  intros Hwf e s. rewrite on_events.
  destruct (decide (event = e)) as [<-|Hne].
  - rewrite lookup_insert_eq. intros [= <-]. apply set_add_NoDup.
    unfold listeners. destruct (events bus !! event) as [s'|] eqn:Hs; simpl.
    + by apply (Hwf event).
    + apply NoDup_nil_2.
  - rewrite lookup_insert_ne by done. apply Hwf.
Qed.

Lemma listenerCount_listeners event bus :
  listenerCount event bus = length (listeners event bus).
Proof. unfold listenerCount, listeners. by destruct (events bus !! event). Qed.

Lemma emit_listeners {Data} event (data : Data) bus :
  emit event data bus = (fun callback => (callback, data)) <$> listeners event bus.
Proof. unfold emit, listeners. by destruct (events bus !! event). Qed.

Lemma listeners_wf event bus : wf bus → NoDup (listeners event bus).
Proof.
  intros Hwf. unfold listeners.
  destruct (events bus !! event) as [s|] eqn:Hs; simpl.
  - by apply (Hwf event).
  - apply NoDup_nil_2.
Qed.

Lemma off_listeners event cb bus :
  listeners event (off event cb bus) = set_delete (listeners event bus) cb.
Proof.
  unfold off, listeners.
  destruct (decide (is_Some (events bus !! event))) as [[s Hs]|Hnone]; simpl.
  - by rewrite lookup_alter_eq, Hs.
  - apply eq_None_not_Some in Hnone. by rewrite Hnone.
Qed.

(** Removing a callback that is not registered changes nothing. *)
Lemma off_absent event cb bus :
  cb ∉ listeners event bus → off event cb bus = bus.
Proof.
  unfold off, listeners.
  destruct (decide (is_Some (events bus !! event))) as [[s Hs]|Hnone];
    [|done].
  rewrite Hs. simpl. intros Hcb. apply bus_eq. simpl.
  apply map_eq. intros e. destruct (decide (event = e)) as [<-|Hne].
  - rewrite lookup_alter_eq, Hs. simpl. by rewrite set_delete_absent.
  - by rewrite lookup_alter_ne.
Qed.

Lemma new_wf : wf new.
Proof. intros event s Hs. simpl in Hs. by rewrite lookup_empty in Hs. Qed.

End EventBusFacts.

(** C8, as stated, does not hold: on a new bus, two [on] calls with the same
    event and the same callback leave one listener, and [emit] calls it
    once. *)
Lemma subscribe_twice_counts_once :
  let bus2 :=
    (EventBus.on "player:play" 7%nat
       (EventBus.on "player:play" 7%nat EventBus.new).1).1 in
  EventBus.listenerCount "player:play" bus2 = 1%nat ∧
  EventBus.listenerCount "player:play" bus2 ≠ 2%nat ∧
  EventBus.calls 7%nat (EventBus.emit "player:play" tt bus2) = 1%nat ∧
  EventBus.calls 7%nat (EventBus.emit "player:play" tt bus2) ≠ 2%nat.
Proof. vm_compute. repeat split; discriminate. Qed.

(** C8, amended. The bus keeps the callbacks of an event in a set, so
    subscribing the same callback to the same event a second time changes
    nothing: the bus after the second [on] is the bus after the first, with
    the same listener count, one more than before the first if the callback
    was new; [emit] calls the callback once; both calls return the same
    unsubscribe function, which removes the one registration, and after it
    the other one changes nothing. *)
Theorem subscribe_twice_registers_once {Data}
    (bus : EventBus.t) (event : string) (cb : EventBus.Callback) (data : Data) :
  EventBus.wf bus →
  let bus1 := (EventBus.on event cb bus).1 in
  let token1 := (EventBus.on event cb bus).2 in
  let bus2 := (EventBus.on event cb bus1).1 in
  let token2 := (EventBus.on event cb bus1).2 in
  let bus3 := EventBus.unsubscribe token1 bus2 in
  bus2 = bus1 ∧ token2 = token1 ∧
  EventBus.listenerCount event bus2 = EventBus.listenerCount event bus1 ∧
  (cb ∉ listeners event bus →
   EventBus.listenerCount event bus2 = S (EventBus.listenerCount event bus)) ∧
  EventBus.calls cb (EventBus.emit event data bus2) = 1%nat ∧
  S (EventBus.listenerCount event bus3) = EventBus.listenerCount event bus2 ∧
  EventBus.calls cb (EventBus.emit event data bus3) = 0%nat ∧
  EventBus.unsubscribe token2 bus3 = bus3.
Proof.
  intros Hwf bus1 token1 bus2 token2 bus3.
  assert (H21 : bus2 = bus1) by apply on_again.
  assert (Hwf1 : EventBus.wf bus1) by by apply on_wf.
  assert (Hin : cb ∈ listeners event bus1).
  { unfold bus1. rewrite on_listeners. apply set_add_member. }
  assert (Hout : cb ∉ listeners event bus3).
  { unfold bus3, EventBus.unsubscribe. simpl. rewrite off_listeners.
    apply set_delete_not_member. }
  split; [done|]. split; [done|]. rewrite H21.
  split; [done|]. split; [|split; [|split; [|split]]].
  - intros Hnew. unfold bus1.
    rewrite !listenerCount_listeners, on_listeners.
    unfold EventBus.set_add. rewrite decide_False by done.
    rewrite length_app. simpl. lia.
  - rewrite emit_listeners, calls_fmap.
    apply count_NoDup; [by apply listeners_wf | done].
  - unfold bus3, EventBus.unsubscribe. simpl. rewrite H21.
    rewrite !listenerCount_listeners, off_listeners.
    apply set_delete_length; [by apply listeners_wf | done].
  - rewrite emit_listeners, calls_fmap. by apply count_absent.
  - unfold EventBus.unsubscribe. simpl. by apply off_absent.
Qed.

(** A bus with one other listener on the event. *)
Lemma subscribe_twice_registers_once_witness :
  let bus := (EventBus.on "player:play" 3%nat EventBus.new).1 in
  let bus1 := (EventBus.on "player:play" 7%nat bus).1 in
  let token1 := (EventBus.on "player:play" 7%nat bus).2 in
  let bus2 := (EventBus.on "player:play" 7%nat bus1).1 in
  let token2 := (EventBus.on "player:play" 7%nat bus1).2 in
  let bus3 := EventBus.unsubscribe token1 bus2 in
  bus2 = bus1 ∧ token2 = token1 ∧
  EventBus.listenerCount "player:play" bus2 =
    EventBus.listenerCount "player:play" bus1 ∧
  (7%nat ∉ listeners "player:play" bus →
   EventBus.listenerCount "player:play" bus2 =
     S (EventBus.listenerCount "player:play" bus)) ∧
  EventBus.calls 7%nat (EventBus.emit "player:play" tt bus2) = 1%nat ∧
  S (EventBus.listenerCount "player:play" bus3) =
    EventBus.listenerCount "player:play" bus2 ∧
  EventBus.calls 7%nat (EventBus.emit "player:play" tt bus3) = 0%nat ∧
  EventBus.unsubscribe token2 bus3 = bus3.
Proof.
  apply (subscribe_twice_registers_once
           (EventBus.on "player:play" 3%nat EventBus.new).1
           "player:play" 7%nat tt).
  apply on_wf, new_wf.
Defined.

(** ** Persistence *)

Section Persistence.
Variable JSON_stringify : JSValue → string.
Variable JSON_parse : string → option JSValue.
Implicit Types (w : World) (u : Updates) (v : JSValue) (key : string).

Local Abbreviation set := (set JSON_stringify).
Local Abbreviation storageGet := (storageGet JSON_parse).
Local Abbreviation loadPersistedState := (loadPersistedState JSON_parse).
Local Abbreviation constructor := (constructor JSON_parse).

(** What [storageGet(key)] returns: the parsed item, [null] when there is
    none or when reading or parsing fails. *)
Lemma storageGet_result key w :
  result (storageGet key JSNull) w =
    (if available (localStorage w)
     then default JSNull (items (localStorage w) !! key ≫= JSON_parse)
     else JSNull) ∧
  after (storageGet key JSNull) w = w.
Proof.
  unfold result, after, StateManager.storageGet.
  destruct (available (localStorage w)); [|done].
  destruct (items (localStorage w) !! key) as [item|]; [|done]. simpl.
  by destruct (JSON_parse item).
Qed.

Lemma storageGet_pair key v w :
  storageGet key v w = (result (storageGet key v) w, w).
Proof.
  unfold result, StateManager.storageGet.
  destruct (available (localStorage w)); [|done].
  destruct (items (localStorage w) !! key) as [item|]; [|done].
  by destruct (JSON_parse item).
Qed.

(** [storageGet] looks at the storage only. *)
Lemma storageGet_stateless key v s w :
  result (storageGet key v)
    {| state := s; localStorage := localStorage w;
       published := published w; random := random w |} =
  result (storageGet key v) w.
Proof. unfold result, StateManager.storageGet. simpl. by repeat case_match. Qed.

Ltac load_step :=
  rewrite storageGet_pair;
  cbn [state localStorage published random fst snd];
  rewrite ?storageGet_stateless.

Lemma loadPersistedState_frame w :
  let w' := after loadPersistedState w in
  localStorage w' = localStorage w ∧ published w' = published w.
Proof.
  unfold after, StateManager.loadPersistedState,
    mbind, M_bind, mret, M_ret, this_state, put_state.
  rewrite (storageGet_pair STORAGE_KEYS.VOLUME JSNull w).
  destruct (result (storageGet STORAGE_KEYS.VOLUME JSNull) w);
    cbv beta iota; load_step;
    destruct (truthy (result (storageGet STORAGE_KEYS.THEME JSNull) w));
    cbv beta iota; load_step;
    destruct (result (storageGet STORAGE_KEYS.PLAYBACK_SPEED JSNull) w);
    done.
Qed.

(** The three fields after [loadPersistedState], from what [storageGet]
    returns for their keys. *)
Lemma loadPersistedState_fields w :
  let s' := state (after loadPersistedState w) in
  let saved key := result (storageGet key JSNull) w in
  volume s' =
    match saved STORAGE_KEYS.VOLUME with
    | JSNull => volume (state w)
    | v => v
    end ∧
  theme s' =
    (if truthy (saved STORAGE_KEYS.THEME) then saved STORAGE_KEYS.THEME
     else theme (state w)) ∧
  playbackRate s' =
    match saved STORAGE_KEYS.PLAYBACK_SPEED with
    | JSNull => playbackRate (state w)
    | v => v
    end.
Proof.
  unfold after, StateManager.loadPersistedState,
    mbind, M_bind, mret, M_ret, this_state, put_state.
  rewrite (storageGet_pair STORAGE_KEYS.VOLUME JSNull w).
  destruct (result (storageGet STORAGE_KEYS.VOLUME JSNull) w);
    cbv beta iota; load_step;
    destruct (truthy (result (storageGet STORAGE_KEYS.THEME JSNull) w));
    cbv beta iota; load_step;
    destruct (result (storageGet STORAGE_KEYS.PLAYBACK_SPEED JSNull) w);
    done.
Qed.

Lemma set_storage u e w :
  available (localStorage w) = true →
  localStorage (after (set u e) w) =
    {| available := true;
       items := persisted JSON_stringify u (items (localStorage w)) |}.
Proof.
  destruct w as [s [av it] pub rnd]. simpl. intros ->.
  unfold persisted.
  destruct (u_volume u) eqn:Hv, (u_theme u) eqn:Ht, (u_playbackRate u) eqn:Hp;
    run; rewrite ?Hv, ?Ht, ?Hp; simpl;
    destruct e as [e|]; try destruct (negb (String.eqb e EmptyString)); done.
Qed.

(** A store constructed over a storage holding a non-null value for the
    volume key starts with that value as its volume. *)
Lemma constructor_volume v w :
  available (localStorage w) = true →
  items (localStorage w) !! STORAGE_KEYS.VOLUME = Some (JSON_stringify v) →
  JSON_parse (JSON_stringify v) = Some v →
  v ≠ JSNull →
  volume (state (after constructor w)) = v.
Proof.
  intros Hav Hitem Hparse Hv.
  unfold after, StateManager.constructor, mbind, M_bind.
  set (w0 := (put_state initial_state w).2).
  change ((let '(_, w') := put_state initial_state w in loadPersistedState w').2)
    with (after loadPersistedState w0).
  destruct (loadPersistedState_fields w0) as (Hvol & _).
  rewrite Hvol. destruct (storageGet_result STORAGE_KEYS.VOLUME w0) as [-> _].
  change (localStorage w0) with (localStorage w).
  rewrite Hav, Hitem. simpl. rewrite Hparse. simpl. by destruct v.
Qed.

Lemma constructor_playbackRate v w :
  available (localStorage w) = true →
  items (localStorage w) !! STORAGE_KEYS.PLAYBACK_SPEED = Some (JSON_stringify v) →
  JSON_parse (JSON_stringify v) = Some v →
  v ≠ JSNull →
  playbackRate (state (after constructor w)) = v.
Proof.
  intros Hav Hitem Hparse Hv.
  unfold after, StateManager.constructor, mbind, M_bind.
  set (w0 := (put_state initial_state w).2).
  change ((let '(_, w') := put_state initial_state w in loadPersistedState w').2)
    with (after loadPersistedState w0).
  destruct (loadPersistedState_fields w0) as (_ & _ & Hrate).
  rewrite Hrate.
  destruct (storageGet_result STORAGE_KEYS.PLAYBACK_SPEED w0) as [-> _].
  change (localStorage w0) with (localStorage w).
  rewrite Hav, Hitem. simpl. rewrite Hparse. simpl. by destruct v.
Qed.

(** The theme is taken over when the stored value is truthy. *)
Lemma constructor_theme v w :
  available (localStorage w) = true →
  items (localStorage w) !! STORAGE_KEYS.THEME = Some (JSON_stringify v) →
  JSON_parse (JSON_stringify v) = Some v →
  truthy v = true →
  theme (state (after constructor w)) = v.
Proof.
  intros Hav Hitem Hparse Hv.
  unfold after, StateManager.constructor, mbind, M_bind.
  set (w0 := (put_state initial_state w).2).
  change ((let '(_, w') := put_state initial_state w in loadPersistedState w').2)
    with (after loadPersistedState w0).
  destruct (loadPersistedState_fields w0) as (_ & Hth & _).
  rewrite Hth. destruct (storageGet_result STORAGE_KEYS.THEME w0) as [-> _].
  change (localStorage w0) with (localStorage w).
  rewrite Hav, Hitem. simpl. rewrite Hparse. simpl. by rewrite Hv.
Qed.

(** An empty string is stored but not taken over: the default theme stays. *)
Example constructor_ignores_empty_theme :
  let w := Sample.world initial_state in
  let stored :=
    {| available := true;
       items := {[ STORAGE_KEYS.THEME := "'light'" ]} |} in
  let emptied :=
    {| available := true;
       items := {[ STORAGE_KEYS.THEME := "''" ]} |} in
  theme (state (after (StateManager.constructor Sample.JSON_parse)
                  {| state := initial_state; localStorage := stored;
                     published := []; random := random w |}))
    = JSStr "light" ∧
  theme (state (after (StateManager.constructor Sample.JSON_parse)
                  {| state := initial_state; localStorage := emptied;
                     published := []; random := random w |}))
    = JSStr "dark".
Proof. by vm_compute. Qed.

(** C9. When the storage can be written, [set] with a volume stores the
    JSON text of that volume under the volume key, and a store constructed
    over the resulting storage has that volume; the same for a theme under
    the theme key and for a playback rate under the speed key. [set] writes
    no other item: a persisted key that is not among the updates keeps its
    item, and so does every other key of the storage. *)
Theorem persistence_round_trip u e w :
  available (localStorage w) = true →
  let stored := localStorage (after (set u e) w) in
  (∀ q : Q,
     u_volume u = Some (JSNum q) →
     JSON_parse (JSON_stringify (JSNum q)) = Some (JSNum q) →
     items stored !! STORAGE_KEYS.VOLUME = Some (JSON_stringify (JSNum q)) ∧
     ∀ w', localStorage w' = stored →
           volume (state (after constructor w')) = JSNum q) ∧
  (∀ t : Theme,
     u_theme u = Some (JSStr (THEMES t)) →
     JSON_parse (JSON_stringify (JSStr (THEMES t))) = Some (JSStr (THEMES t)) →
     items stored !! STORAGE_KEYS.THEME
       = Some (JSON_stringify (JSStr (THEMES t))) ∧
     ∀ w', localStorage w' = stored →
           theme (state (after constructor w')) = JSStr (THEMES t)) ∧
  (∀ q : Q,
     u_playbackRate u = Some (JSNum q) →
     JSON_parse (JSON_stringify (JSNum q)) = Some (JSNum q) →
     items stored !! STORAGE_KEYS.PLAYBACK_SPEED
       = Some (JSON_stringify (JSNum q)) ∧
     ∀ w', localStorage w' = stored →
           playbackRate (state (after constructor w')) = JSNum q) ∧
  (u_volume u = None →
     items stored !! STORAGE_KEYS.VOLUME
       = items (localStorage w) !! STORAGE_KEYS.VOLUME) ∧
  (u_theme u = None →
     items stored !! STORAGE_KEYS.THEME
       = items (localStorage w) !! STORAGE_KEYS.THEME) ∧
  (u_playbackRate u = None →
     items stored !! STORAGE_KEYS.PLAYBACK_SPEED
       = items (localStorage w) !! STORAGE_KEYS.PLAYBACK_SPEED) ∧
  (∀ key,
     key ≠ STORAGE_KEYS.VOLUME → key ≠ STORAGE_KEYS.THEME →
     key ≠ STORAGE_KEYS.PLAYBACK_SPEED →
     items stored !! key = items (localStorage w) !! key).
Proof.
  intros Hav stored. unfold stored. rewrite set_storage by done.
  unfold persisted. simpl.
  assert (Hvt : STORAGE_KEYS.VOLUME ≠ STORAGE_KEYS.THEME) by done.
  assert (Hvp : STORAGE_KEYS.VOLUME ≠ STORAGE_KEYS.PLAYBACK_SPEED) by done.
  assert (Htp : STORAGE_KEYS.THEME ≠ STORAGE_KEYS.PLAYBACK_SPEED) by done.
  split; [|split; [|split; [|split; [|split; [|split]]]]].
  - intros q Hu Hparse.
    assert (Hitem :
      items {| available := true;
               items := persisted JSON_stringify u (items (localStorage w)) |}
        !! STORAGE_KEYS.VOLUME = Some (JSON_stringify (JSNum q))).
    { unfold persisted. simpl. rewrite Hu.
      destruct (u_playbackRate u), (u_theme u);
        rewrite ?lookup_insert_ne by done; apply lookup_insert_eq. }
    split; [exact Hitem|]. intros w' Hw'.
    apply constructor_volume; rewrite ?Hw'; done.
  - intros t Hu Hparse.
    assert (Hitem :
      items {| available := true;
               items := persisted JSON_stringify u (items (localStorage w)) |}
        !! STORAGE_KEYS.THEME = Some (JSON_stringify (JSStr (THEMES t)))).
    { unfold persisted. simpl. rewrite Hu.
      destruct (u_playbackRate u);
        rewrite ?lookup_insert_ne by done; apply lookup_insert_eq. }
    split; [exact Hitem|]. intros w' Hw'.
    apply constructor_theme; rewrite ?Hw'; try done. by destruct t.
  - intros q Hu Hparse.
    assert (Hitem :
      items {| available := true;
               items := persisted JSON_stringify u (items (localStorage w)) |}
        !! STORAGE_KEYS.PLAYBACK_SPEED = Some (JSON_stringify (JSNum q))).
    { unfold persisted. simpl. rewrite Hu. apply lookup_insert_eq. }
    split; [exact Hitem|]. intros w' Hw'.
    apply constructor_playbackRate; rewrite ?Hw'; done.
  - intros ->. destruct (u_playbackRate u), (u_theme u);
      by rewrite ?lookup_insert_ne by done.
  - intros ->. destruct (u_playbackRate u), (u_volume u);
      by rewrite ?lookup_insert_ne by done.
  - intros ->. destruct (u_theme u), (u_volume u);
      by rewrite ?lookup_insert_ne by done.
  - intros key Hv Ht Hp.
    destruct (u_playbackRate u), (u_theme u), (u_volume u);
      by rewrite ?lookup_insert_ne by done.
Qed.

End Persistence.

(** Volume 0.42, the light theme and speed 1.5 written from the initial
    state, then read back by a new store. *)
Lemma persistence_round_trip_witness :
  let w := Sample.world initial_state in
  let w1 := after (set Sample.JSON_stringify Sample.settings None) w in
  let fresh := state (after (constructor Sample.JSON_parse) w1) in
  (items (localStorage w1) !! STORAGE_KEYS.VOLUME = Some "0.42" ∧
   volume fresh = JSNum (42 # 100)) ∧
  (items (localStorage w1) !! STORAGE_KEYS.THEME = Some "'light'" ∧
   theme fresh = JSStr "light") ∧
  (items (localStorage w1) !! STORAGE_KEYS.PLAYBACK_SPEED = Some "1.5" ∧
   playbackRate fresh = JSNum (3 # 2)) ∧
  items (localStorage w1) !! STORAGE_KEYS.PLAYLIST = None.
Proof.
  intros w w1 fresh.
  destruct (persistence_round_trip Sample.JSON_stringify Sample.JSON_parse
              Sample.settings None w eq_refl)
    as (Hvolume & Htheme & Hspeed & _ & _ & _ & Hother).
  destruct (Hvolume (42 # 100)%Q eq_refl eq_refl) as [Hv1 Hv2].
  destruct (Htheme LIGHT eq_refl eq_refl) as [Ht1 Ht2].
  destruct (Hspeed (3 # 2)%Q eq_refl eq_refl) as [Hs1 Hs2].
  split; [split; [exact Hv1 | exact (Hv2 w1 eq_refl)]|].
  split; [split; [exact Ht1 | exact (Ht2 w1 eq_refl)]|].
  split; [split; [exact Hs1 | exact (Hs2 w1 eq_refl)]|].
  exact (Hother STORAGE_KEYS.PLAYLIST ltac:(discriminate) ltac:(discriminate)
           ltac:(discriminate)).
Defined.

(** The run of the design document: tracks A, B, C, the last one current
    and removed. *)
Lemma removeFromPlaylist_in_range_witness :
  let w := Sample.world
             (Sample.player [Sample.A; Sample.B; Sample.C] 2 OFF false []) in
  let s' := state (after (removeFromPlaylist Sample.JSON_stringify 2) w) in
  playlist s' = [Sample.A; Sample.B] ∧ currentTrackIndex s' = 1.
Proof.
  intros w s'.
  destruct (removeFromPlaylist_in_range Sample.JSON_stringify 2 w
              ltac:(simpl; lia))
    as (Hplaylist & _ & _ & Hcurrent & _ & _).
  destruct (Hcurrent eq_refl) as (Hclamp & _).
  split; [exact Hplaylist | exact Hclamp].
Defined.

(** * Further properties *)

Import Spec2.

(** ** More of the state store *)

Lemma assign_repeatMode (s : PlayerState) (m : RepeatMode) :
  assign s {| u_playbackRate := None; u_volume := None; u_playlist := None;
              u_currentTrackIndex := None; u_shuffleEnabled := None;
              u_repeatMode := Some m; u_shuffledOrder := None;
              u_theme := None; u_others := ∅ |} =
  {| playbackRate := playbackRate s; volume := volume s;
     playlist := playlist s; currentTrackIndex := currentTrackIndex s;
     shuffleEnabled := shuffleEnabled s; repeatMode := m;
     shuffledOrder := shuffledOrder s; theme := theme s;
     others := others s |}.
Proof. unfold assign. simpl. by rewrite (left_id_L ∅ (∪)). Qed.

Lemma cycleRepeatMode_after (JSON_stringify : JSValue → string) (w : World) :
  after (cycleRepeatMode JSON_stringify) w =
    {| state :=
         {| playbackRate := playbackRate (state w); volume := volume (state w);
            playlist := playlist (state w);
            currentTrackIndex := currentTrackIndex (state w);
            shuffleEnabled := shuffleEnabled (state w);
            repeatMode := rotate (repeatMode (state w));
            shuffledOrder := shuffledOrder (state w); theme := theme (state w);
            others := others (state w) |};
       localStorage := localStorage w;
       published :=
         published w ++
         [(EVENTS.REPEAT_TOGGLE, RepeatToggle (rotate (repeatMode (state w))))];
       random := random w |}.
Proof.
  unfold after, cycleRepeatMode, mbind, M_bind, this_state.
  set (m := [OFF; ALL; ONE] !!! _).
  assert (m = rotate (repeatMode (state w))) as ->
    by (unfold m; by destruct (repeatMode (state w))).
  rewrite (surjective_pairing (set _ _ _ _)).
  change (set JSON_stringify ?u None w).2 with (after (set JSON_stringify u None) w).
  rewrite set_unpersisted by done. rewrite assign_repeatMode.
  reflexivity.
Qed.

(** X1. Three calls of [cycleRepeatMode] bring the repeat mode, and with it
    the whole state record, back to where it was; the storage is not
    touched, and three repeat events are published, carrying the modes of
    the rotation off, all, one, off in turn. *)
Theorem cycleRepeatMode_three_times
    (JSON_stringify : JSValue → string) (w : World) :
  let cycle := after (cycleRepeatMode JSON_stringify) in
  let m := repeatMode (state w) in
  state (cycle (cycle (cycle w))) = state w ∧
  localStorage (cycle (cycle (cycle w))) = localStorage w ∧
  published (cycle (cycle (cycle w))) =
    published w ++
    [(EVENTS.REPEAT_TOGGLE, RepeatToggle (rotate m));
     (EVENTS.REPEAT_TOGGLE, RepeatToggle (rotate (rotate m)));
     (EVENTS.REPEAT_TOGGLE, RepeatToggle m)].
Proof.
  intros cycle m. unfold cycle. rewrite !cycleRepeatMode_after. simpl.
  fold m. assert (rotate (rotate (rotate m)) = m) as -> by by destruct m.
  split; [by destruct (state w)|]. split; [done|].
  by rewrite <- !app_assoc.
Qed.

Section MoreStore.
Variable JSON_stringify : JSValue → string.
Variable JSON_parse : string → option JSValue.
Implicit Types (w : World) (index : Z) (tracks : list Track.t).

Local Abbreviation set := (set JSON_stringify).
Local Abbreviation setCurrentTrack := (setCurrentTrack JSON_stringify).
Local Abbreviation setPlaylist := (setPlaylist JSON_stringify).
Local Abbreviation addToPlaylist := (addToPlaylist JSON_stringify).
Local Abbreviation constructor := (constructor JSON_parse).

Lemma js_index_in_range {A} (a : list A) (i : Z) :
  0 <= i < Z.of_nat (length a) → ∃ x, js_index a i = Some x.
Proof.
  intros Hi. unfold js_index. rewrite decide_True by lia.
  apply lookup_lt_is_Some. lia.
Qed.

(** X2. For an index inside the playlist, [setCurrentTrack] makes it the
    current index, so that [get('currentTrackIndex')] returns it and
    [getCurrentTrack] returns the track at that index, and publishes one
    track-change event carrying that track and the index; the playlist, the
    shuffle state, the repeat mode and the storage stay as they were. *)
Theorem setCurrentTrack_selects index w :
  0 <= index < Z.of_nat (length (playlist (state w))) →
  let w' := after (setCurrentTrack index) w in
  ∃ track,
    playlist (state w) !! Z.to_nat index = Some track ∧
    result (get (Some "currentTrackIndex")) w' = Field (FNumber index) ∧
    result getCurrentTrack w' = Some track ∧
    published w' =
      published w ++ [(EVENTS.TRACK_CHANGE, TrackChange (Some track) index)] ∧
    playlist (state w') = playlist (state w) ∧
    shuffleEnabled (state w') = shuffleEnabled (state w) ∧
    shuffledOrder (state w') = shuffledOrder (state w) ∧
    repeatMode (state w') = repeatMode (state w) ∧
    localStorage w' = localStorage w.
Proof.
  intros Hin w'.
  destruct (js_index_in_range (playlist (state w)) index Hin) as [track Htrack].
  exists track.
  assert (Hlookup : playlist (state w) !! Z.to_nat index = Some track).
  { unfold js_index in Htrack. by rewrite decide_True in Htrack by lia. }
  unfold w', after, result, StateManager.setCurrentTrack, mbind, M_bind,
    this_state.
  rewrite decide_True by done.
  run. unfold getCurrentTrack, get, mbind, M_bind, this_state, mret, M_ret.
  simpl. rewrite decide_True by lia. rewrite Htrack.
  by repeat split.
Qed.

(** X3. From any state, [setPlaylist] installs the given tracks and selects
    the first one: [getCurrentTrack] then returns the first track, or
    nothing for an empty list, the current index is -1 or valid again, and
    one playlist-update event carrying the tracks is published. *)
Theorem setPlaylist_selects_first tracks w :
  let w' := after (setPlaylist tracks) w in
  playlist (state w') = tracks ∧
  result getCurrentTrack w' = head tracks ∧
  currentTrackIndex (state w') = (if tracks is [] then -1 else 0) ∧
  index_inv (state w') ∧
  published w' =
    published w ++ [(EVENTS.PLAYLIST_UPDATE, PlaylistUpdate tracks)] ∧
  localStorage w' = localStorage w.
Proof.
  intros w'. unfold w'. run.
  unfold result, getCurrentTrack, index_inv, mbind, M_bind, this_state,
    mret, M_ret. simpl.
  destruct tracks as [|t tracks]; simpl; repeat split; try done.
  - by left.
  - right. lia.
Qed.

(** X4. [addToPlaylist] appends the tracks and goes through [setPlaylist]:
    the current index is put back to 0 whatever track was current (to -1
    when the playlist stays empty), and the playlist-update event carries
    the whole new playlist. *)
Theorem addToPlaylist_appends_and_reselects tracks w :
  let w' := after (addToPlaylist tracks) w in
  playlist (state w') = playlist (state w) ++ tracks ∧
  currentTrackIndex (state w') =
    (if playlist (state w) ++ tracks is [] then -1 else 0) ∧
  published w' =
    published w ++
    [(EVENTS.PLAYLIST_UPDATE, PlaylistUpdate (playlist (state w) ++ tracks))].
Proof.
  intros w'. unfold w'. run.
  by destruct (playlist (state w) ++ tracks).
Qed.

(** X5. When the current index is -1 or inside the playlist,
    [getCurrentTrack] returns nothing exactly when no track is selected,
    and otherwise the track of the playlist at the current index. *)
Theorem getCurrentTrack_correct w :
  index_inv (state w) →
  (result getCurrentTrack w = None ↔ currentTrackIndex (state w) = -1) ∧
  (∀ track, result getCurrentTrack w = Some track →
     playlist (state w) !! Z.to_nat (currentTrackIndex (state w)) = Some track).
Proof.
  intros Hinv.
  unfold result, getCurrentTrack, mbind, M_bind, this_state, mret, M_ret.
  simpl. unfold index_inv in Hinv.
  destruct (decide (0 <= currentTrackIndex (state w))) as [Hpos|Hneg]; simpl.
  - destruct (js_index_in_range (playlist (state w))
                (currentTrackIndex (state w))) as [track Htrack]; [lia|].
    rewrite Htrack. split.
    + split; [done | lia].
    + intros track' [= <-]. unfold js_index in Htrack.
      by rewrite decide_True in Htrack by lia.
  - split; [split; [lia | done] | done].
Qed.

(** X6. [set] always updates the state in memory, whether or not the
    storage can be written: the state becomes the old one overwritten by the
    updates; with an event name, one event is published carrying the new
    state, the previous state and the updates, and none without a name or
    with an empty one; a storage that cannot be written is left as it is. *)
Theorem set_in_memory (u : Updates) (e : option string) w :
  let w' := after (set u e) w in
  state w' = assign (state w) u ∧
  published w' =
    published w ++
    (match e with
     | Some name =>
         if String.eqb name EmptyString then []
         else [(name, StateChange (assign (state w) u) (state w) u)]
     | None => []
     end) ∧
  random w' = random w ∧
  localStorage w' =
    (if available (localStorage w)
     then {| available := true;
             items := persisted JSON_stringify u (items (localStorage w)) |}
     else localStorage w).
Proof.
  intros w'. unfold w'. clear w'.
  destruct w as [s [[] it] pub rnd]; unfold persisted;
    destruct (u_volume u) eqn:Hv, (u_theme u) eqn:Ht,
      (u_playbackRate u) eqn:Hp; run; rewrite ?Hv, ?Ht, ?Hp; simpl;
    destruct e as [e|]; try destruct (String.eqb e EmptyString); simpl;
    by rewrite ?app_nil_r.
Qed.



(** X8. A store constructed over a storage that cannot be read, or that
    holds nothing readable under the three persisted keys (no item, or an
    item that is not JSON), starts from the defaults; constructing it
    writes nothing and publishes nothing. *)
Theorem constructor_defaults w :
  available (localStorage w) = false ∨
  (∀ key, key ∈ [STORAGE_KEYS.VOLUME; STORAGE_KEYS.THEME;
                 STORAGE_KEYS.PLAYBACK_SPEED] →
          items (localStorage w) !! key ≫= JSON_parse = None) →
  after constructor w =
    {| state := initial_state; localStorage := localStorage w;
       published := published w; random := random w |}.
Proof.
  intros Hcase.
  unfold after, StateManager.constructor, mbind, M_bind.
  set (w0 := (put_state initial_state w).2).
  change ((let '(_, w') := put_state initial_state w in
           loadPersistedState JSON_parse w').2)
    with (after (loadPersistedState JSON_parse) w0).
  assert (Hnull : ∀ key,
    key ∈ [STORAGE_KEYS.VOLUME; STORAGE_KEYS.THEME;
           STORAGE_KEYS.PLAYBACK_SPEED] →
    result (storageGet JSON_parse key JSNull) w0 = JSNull).
  { intros key Hkey.
    destruct (storageGet_result JSON_parse key w0) as [-> _].
    change (localStorage w0) with (localStorage w).
    destruct Hcase as [->|Hnone]; [done|].
    destruct (available (localStorage w)); [|done].
    by rewrite (Hnone key Hkey). }
  unfold after, loadPersistedState, mbind, M_bind, mret, M_ret.
  rewrite (storageGet_pair JSON_parse STORAGE_KEYS.VOLUME JSNull w0).
  rewrite (Hnull STORAGE_KEYS.VOLUME) by (rewrite !elem_of_cons; tauto). cbv beta iota.
  rewrite (storageGet_pair JSON_parse STORAGE_KEYS.THEME JSNull w0).
  rewrite (Hnull STORAGE_KEYS.THEME) by (rewrite !elem_of_cons; tauto). cbv beta iota.
  change (truthy JSNull) with false. cbv beta iota.
  rewrite (storageGet_pair JSON_parse STORAGE_KEYS.PLAYBACK_SPEED JSNull w0).
  rewrite (Hnull STORAGE_KEYS.PLAYBACK_SPEED) by (rewrite !elem_of_cons; tauto).
  reflexivity.
Qed.

End MoreStore.

(** ** Navigation stays inside the playlist *)

Lemma indexOf_from_range `{EqDecision A} (k : Z) (a : list A) (x : A) :
  indexOf_from k a x = -1 ∨
  k <= indexOf_from k a x < k + Z.of_nat (length a).
Proof.
  revert k. induction a as [|y a IH]; intros k; simpl; [by left|].
  destruct (decide (y = x)); [right; lia|].
  destruct (IH (k + 1)) as [->|H]; [by left | right; lia].
Qed.

Lemma indexOf_range `{EqDecision A} (a : list A) (x : A) :
  -1 <= indexOf a x < Z.of_nat (length a).
Proof.
  unfold indexOf. destruct (indexOf_from_range 0 a x) as [->|H]; lia.
Qed.

Lemma js_index_elem_of {A} (a : list A) (i : Z) (x : A) :
  js_index a i = Some x → x ∈ a.
Proof.
  unfold js_index. destruct (decide (0 <= i)); [|done].
  intros H. by apply list_elem_of_lookup_2 in H.
Qed.

Lemma order_entry_valid (s : PlayerState) (i n : Z) :
  shuffledOrder s ≡ₚ valid_indices (length (playlist s)) →
  js_index (shuffledOrder s) i = Some n →
  0 <= n < Z.of_nat (length (playlist s)).
Proof.
  intros Hperm Hn. apply js_index_elem_of in Hn.
  rewrite Hperm in Hn. by apply elem_of_valid_indices.
Qed.

Lemma shuffle_inv_mode (s : PlayerState) :
  shuffle_inv s → shuffle_mode s →
  shuffledOrder s ≡ₚ valid_indices (length (playlist s)).
Proof. intros [Hnil|Hperm] [_ Hne]; done. Qed.

Lemma next_in_range (w : World) :
  index_inv (state w) → shuffle_inv (state w) →
  ∃ n, result getNextTrackIndex w = Some n ∧
       (n = -1 ∨ 0 <= n < Z.of_nat (length (playlist (state w)))).
Proof.
  intros Hidx Hsh.
  unfold result, getNextTrackIndex, mbind, M_bind, this_state; simpl.
  set (s := state w) in *. unfold index_inv in Hidx.
  destruct (decide (length (playlist s) = 0%nat)); simpl; [eauto|].
  destruct (decide (repeatMode s = ONE)); simpl.
  { eexists; split; [done|]. lia. }
  destruct (shuffleEnabled s && bool_decide (0 < length (shuffledOrder s))%nat)
    eqn:Hmode.
  - apply shuffle_mode_test in Hmode.
    pose proof (shuffle_inv_mode s Hsh Hmode) as Hperm.
    pose proof (indexOf_range (shuffledOrder s) (currentTrackIndex s)) as Hpos.
    assert (Hlen : (0 < length (shuffledOrder s))%nat).
    { destruct Hmode as [_ Hne]. destruct (shuffledOrder s); [done|simpl; lia]. }
    destruct (decide (Z.of_nat (length (shuffledOrder s))
                      <= indexOf (shuffledOrder s) (currentTrackIndex s) + 1));
      simpl.
    + destruct (decide (repeatMode s = ALL)); [|eauto].
      destruct (js_index_in_range (shuffledOrder s) 0) as [x Hx]; [lia|].
      rewrite Hx. eexists; split; [done|]. right.
      by apply (order_entry_valid s 0).
    + destruct (js_index_in_range (shuffledOrder s)
                  (indexOf (shuffledOrder s) (currentTrackIndex s) + 1)) as [x Hx]; [lia|].
      rewrite Hx. eexists; split; [done|]. right.
      by eapply order_entry_valid.
  - destruct (decide (Z.of_nat (length (playlist s)) <= currentTrackIndex s + 1));
      simpl.
    + destruct (decide (repeatMode s = ALL)); eexists; split; try done; lia.
    + eexists; split; [done|]. lia.
Qed.

Lemma previous_in_range (w : World) :
  index_inv (state w) → shuffle_inv (state w) →
  ∃ n, result getPreviousTrackIndex w = Some n ∧
       (n = -1 ∨ 0 <= n < Z.of_nat (length (playlist (state w)))).
Proof.
  intros Hidx Hsh.
  unfold result, getPreviousTrackIndex, mbind, M_bind, this_state; simpl.
  set (s := state w) in *. unfold index_inv in Hidx.
  destruct (decide (length (playlist s) = 0%nat)); simpl; [eauto|].
  destruct (shuffleEnabled s && bool_decide (0 < length (shuffledOrder s))%nat)
    eqn:Hmode; simpl.
  - apply shuffle_mode_test in Hmode.
    pose proof (shuffle_inv_mode s Hsh Hmode) as Hperm.
    pose proof (indexOf_range (shuffledOrder s) (currentTrackIndex s)) as Hpos.
    assert (Hlen : (0 < length (shuffledOrder s))%nat).
    { destruct Hmode as [_ Hne]. destruct (shuffledOrder s); [done|simpl; lia]. }
    destruct (decide (0 <= indexOf (shuffledOrder s) (currentTrackIndex s) - 1)).
    + destruct (js_index_in_range (shuffledOrder s)
                  (indexOf (shuffledOrder s) (currentTrackIndex s) - 1)) as [x Hx]; [lia|].
      rewrite Hx. eexists; split; [done|]. right.
      by eapply order_entry_valid.
    + destruct (js_index_in_range (shuffledOrder s)
                  (Z.of_nat (length (shuffledOrder s)) - 1)) as [x Hx]; [lia|].
      rewrite Hx. eexists; split; [done|]. right.
      by eapply order_entry_valid.
  - eexists; split; [done|].
    destruct (decide (0 < currentTrackIndex s)); lia.
Qed.

(** X9. In a state where the current index is -1 or valid and the shuffle
    order is empty or a permutation of the indices, [getNextTrackIndex] and
    [getPreviousTrackIndex] return a number (never [undefined]) that is -1
    or an index inside the playlist. *)
Theorem navigation_stays_in_playlist (w : World) :
  index_inv (state w) → shuffle_inv (state w) →
  (∃ n, result getNextTrackIndex w = Some n ∧
        (n = -1 ∨ 0 <= n < Z.of_nat (length (playlist (state w))))) ∧
  (∃ n, result getPreviousTrackIndex w = Some n ∧
        (n = -1 ∨ 0 <= n < Z.of_nat (length (playlist (state w))))).
Proof.
  intros Hidx Hsh. split; [by apply next_in_range | by apply previous_in_range].
Qed.

(** ** Going forward, then back *)

Lemma indexOf_head_of `{EqDecision A} (x : A) (a : list A) :
  indexOf (x :: a) x = 0.
Proof. unfold indexOf. simpl. by rewrite decide_True. Qed.

Lemma previous_of_next (w w' : World) (n : Z) :
  has_current (state w) → shuffle_inv (state w) →
  repeatMode (state w) ≠ ONE →
  result getNextTrackIndex w = Some n → 0 <= n →
  playlist (state w') = playlist (state w) →
  shuffleEnabled (state w') = shuffleEnabled (state w) →
  shuffledOrder (state w') = shuffledOrder (state w) →
  currentTrackIndex (state w') = n →
  result getPreviousTrackIndex w' = Some (currentTrackIndex (state w)).
Proof.
  intros Hcur Hsh Hone Hnext Hn Hpl Hen Hord Hcur'.
  unfold result, getPreviousTrackIndex, mbind, M_bind, this_state; simpl.
  unfold result, getNextTrackIndex, mbind, M_bind, this_state in Hnext;
    simpl in Hnext.
  unfold mret, M_ret in *.
  rewrite Hpl, Hen, Hord, Hcur'. clear Hpl Hen Hord Hcur'.
  set (s := state w) in *. unfold has_current in Hcur.
  rewrite decide_False in Hnext by lia. rewrite decide_False by lia.
  rewrite decide_False in Hnext by done.
  destruct (shuffleEnabled s && bool_decide (0 < length (shuffledOrder s))%nat)
    eqn:Hmode; simpl in *.
  - apply shuffle_mode_test in Hmode.
    pose proof (shuffle_inv_mode s Hsh Hmode) as Hperm.
    assert (Hnd : NoDup (shuffledOrder s)).
    { rewrite Hperm. apply valid_indices_NoDup. }
    assert (Hin : currentTrackIndex s ∈ shuffledOrder s).
    { rewrite Hperm. by apply elem_of_valid_indices. }
    destruct (first_occurrence _ _ Hin) as (pre & post & Hsplit & Hpre).
    rewrite Hsplit in Hnext, Hnd |- *.
    rewrite indexOf_first, length_app in Hnext by done.
    destruct post as [|nxt post]; cbn [length] in Hnext.
    + rewrite decide_True in Hnext by lia. cbn [fst] in Hnext.
      destruct (decide (repeatMode s = ALL)); [|simplify_eq; lia].
      rewrite js_index_head in Hnext.
      rewrite js_index_last, last_snoc.
      destruct pre as [|first pre]; simpl in Hnext; simplify_eq;
        cbn [app]; rewrite indexOf_head_of; done.
    + rewrite decide_False in Hnext by lia. cbn [fst] in Hnext.
      replace (pre ++ currentTrackIndex s :: nxt :: post)
        with ((pre ++ [currentTrackIndex s]) ++ nxt :: post) in *
        by by rewrite <- app_assoc.
      replace (Z.of_nat (length pre) + 1)
        with (Z.of_nat (length (pre ++ [currentTrackIndex s]))) in Hnext
        by (rewrite length_app; simpl; lia).
      rewrite js_index_middle in Hnext. simplify_eq.
      apply NoDup_app in Hnd as (_ & Hdisj & _).
      rewrite indexOf_first.
      2:{ intros Hn'. apply (Hdisj _ Hn'). by left. }
      rewrite length_app. simpl. rewrite decide_True by lia.
      replace (Z.of_nat (length pre + 1) - 1) with (Z.of_nat (length pre))
        by lia.
      rewrite <- app_assoc. simpl. by rewrite js_index_middle.
  - destruct (decide (Z.of_nat (length (playlist s)) <= currentTrackIndex s + 1));
      cbn [fst] in Hnext.
    + destruct (decide (repeatMode s = ALL)); simplify_eq; try lia.
      rewrite decide_False by lia. cbn [fst]. f_equal. lia.
    + simplify_eq. rewrite decide_True by lia. cbn [fst]. f_equal. lia.
Qed.

Section ForwardAndBack.
Variable JSON_stringify : JSValue → string.

(** X10. With a track selected, a shuffle order that is empty or a
    permutation of the indices, and a repeat mode other than one: when
    [getNextTrackIndex] gives a track and [setCurrentTrack] selects it,
    [getPreviousTrackIndex] gives the track that was current before, in
    sequential mode and in shuffle mode alike. *)
Theorem previous_undoes_next (w : World) (n : Z) :
  has_current (state w) → shuffle_inv (state w) →
  repeatMode (state w) ≠ ONE →
  result getNextTrackIndex w = Some n → 0 <= n →
  result getPreviousTrackIndex (after (setCurrentTrack JSON_stringify n) w)
  = Some (currentTrackIndex (state w)).
Proof.
  intros Hcur Hsh Hone Hnext Hn.
  assert (Hidx : index_inv (state w)) by by right.
  destruct (next_in_range w Hidx Hsh) as (n' & Hn' & Hrange).
  rewrite Hnext in Hn'. simplify_eq.
  destruct (setCurrentTrack_in_range JSON_stringify n' w ltac:(lia))
    as (Hpl & Hcur' & Hord & Hen & _).
  by apply (previous_of_next w _ n').
Qed.

End ForwardAndBack.

(** Three tracks in the shuffle order 1, 2, 0 with repeat all, the last
    of the order current: next wraps to 1, previous comes back to 0. *)
Lemma previous_undoes_next_witness :
  let w := Sample.world
             (Sample.player [Sample.A; Sample.B; Sample.C] 0 ALL true [1; 2; 0])
  in
  result getNextTrackIndex w = Some 1 ∧
  result getPreviousTrackIndex
    (after (setCurrentTrack Sample.JSON_stringify 1) w) = Some 0.
Proof.
  intros w. split; [reflexivity|].
  apply (previous_undoes_next Sample.JSON_stringify w 1).
  - unfold has_current. simpl. lia.
  - right. simpl. unfold valid_indices. simpl.
    apply Permutation_sym, (Permutation_cons_append [1; 2] 0).
  - discriminate.
  - reflexivity.
  - lia.
Defined.

(** ** More of the event bus *)

Section MoreEventBus.
Import EventBus.
Implicit Types (bus : EventBus.t) (event : string) (cb : Callback).

Lemma off_other_event event event' cb bus :
  event' ≠ event → listeners event' (off event cb bus) = listeners event' bus.
Proof.
  intros Hne. unfold off, listeners.
  destruct (decide (is_Some (events bus !! event))); [|done]. simpl.
  by rewrite lookup_alter_ne.
Qed.

Lemma on_other_event event event' cb bus :
  event' ≠ event → listeners event' (on event cb bus).1 = listeners event' bus.
Proof.
  intros Hne. unfold listeners. rewrite on_events.
  by rewrite lookup_insert_ne.
Qed.

Lemma calls_filter_ne {Data} (s : list Callback) cb c (data : Data) :
  c ≠ cb →
  calls c ((fun callback => (callback, data)) <$> set_delete s cb) =
  calls c ((fun callback => (callback, data)) <$> s).
Proof.
  intros Hne. rewrite !calls_fmap. unfold set_delete.
  induction s as [|x s IH]; [done|].
  rewrite !filter_cons.
  destruct (decide (x ≠ cb)) as [Hx|Hx].
  - rewrite filter_cons. destruct (decide (x = c)); simpl; by rewrite IH.
  - destruct (decide (x = c)) as [->|_]; [|done].
    exfalso. apply Hx. done.
Qed.

(** X11. After [off(event, callback)] an [emit] on that event no longer
    calls the callback; it calls every other callback as often as before,
    the remaining listeners keep their order, and the listeners of other
    events are untouched. *)
Theorem off_removes_the_callback {Data} event cb (data : Data) bus :
  let bus' := off event cb bus in
  calls cb (emit event data bus') = 0%nat ∧
  (∀ c, c ≠ cb →
        calls c (emit event data bus') = calls c (emit event data bus)) ∧
  listeners event bus' = filter (fun c => c ≠ cb) (listeners event bus) ∧
  (∀ event', event' ≠ event → listeners event' bus' = listeners event' bus).
Proof.
  intros bus'. unfold bus'.
  split; [|split; [|split]].
  - rewrite emit_listeners, calls_fmap, off_listeners.
    apply count_absent, set_delete_not_member.
  - intros c Hc. rewrite !emit_listeners, off_listeners.
    by apply calls_filter_ne.
  - apply off_listeners.
  - intros event' Hne. by apply off_other_event.
Qed.

(** X12. [clear(event)] leaves the event without listeners, so that [emit]
    calls nothing, and leaves the other events alone; [clear()] leaves every
    event without listeners. *)
Theorem clear_removes_listeners {Data} event (data : Data) bus :
  event ≠ EmptyString →
  listenerCount event (clear (Some event) bus) = 0%nat ∧
  emit event data (clear (Some event) bus) = [] ∧
  (∀ event', event' ≠ event →
     listeners event' (clear (Some event) bus) = listeners event' bus) ∧
  (∀ event', listenerCount event' (clear None bus) = 0%nat).
Proof.
  intros Hne. unfold clear, listenerCount, emit, listeners.
  destruct (String.eqb_spec event EmptyString) as [?|_]; [done|]. simpl.
  rewrite lookup_delete_eq.
  repeat split; try done.
  intros event' Hne'. by rewrite lookup_delete_ne.
Qed.

(** X13. On a bus whose sets hold no callback twice, [emit] calls every
    listener of the event once and nobody else; and a callback that [on]
    registers anew is called after the listeners already there, while the
    calls made for other events do not change. *)
Theorem emit_calls_each_listener_once {Data} event cb (data : Data) bus :
  wf bus →
  (∀ c, calls c (emit event data bus) =
        if decide (c ∈ listeners event bus) then 1%nat else 0%nat) ∧
  (cb ∉ listeners event bus →
   emit event data (on event cb bus).1 = emit event data bus ++ [(cb, data)]) ∧
  (∀ event', event' ≠ event →
     emit event' data (on event cb bus).1 = emit event' data bus).
Proof.
  intros Hwf. split; [|split].
  - intros c. rewrite emit_listeners, calls_fmap.
    destruct (decide (c ∈ listeners event bus)).
    + apply count_NoDup; [by apply listeners_wf | done].
    + by apply count_absent.
  - intros Hnew. rewrite !emit_listeners, on_listeners.
    unfold set_add. rewrite decide_False by done.
    by rewrite fmap_app.
  - intros event' Hne. rewrite !emit_listeners. by rewrite on_other_event.
Qed.

(** X14. Subscribing a callback that was not registered and then calling
    the returned unsubscribe function leaves every event with the
    listeners it had, in the same order. *)
Theorem subscribe_then_unsubscribe event cb bus :
  cb ∉ listeners event bus →
  ∀ event',
    listeners event' (unsubscribe (on event cb bus).2 (on event cb bus).1)
    = listeners event' bus.
Proof.
  intros Hnew event'.
  change (unsubscribe (on event cb bus).2 (on event cb bus).1)
    with (off event cb (on event cb bus).1).
  destruct (decide (event' = event)) as [->|Hne].
  - rewrite off_listeners, on_listeners.
    unfold set_add, set_delete. rewrite decide_False by done.
    rewrite filter_app, filter_cons, decide_False, filter_nil, app_nil_r
      by (intros H; by apply H).
    by apply set_delete_absent.
  - by rewrite off_other_event, on_other_event.
Qed.

End MoreEventBus.

(** ** utils/helpers.js: the storage helpers *)

Section StorageHelpers.
Variable JSON_stringify : JSValue → string.
Variable JSON_parse : string → option JSValue.
Implicit Types (w : World) (key : string) (v d : JSValue).

Local Abbreviation storageSet := (storageSet JSON_stringify).
Local Abbreviation storageGet := (storageGet JSON_parse).

(** X15. With a storage that can be written and a value that survives
    [JSON.parse(JSON.stringify(v))], [storageGet] after [storageSet] under
    the same key returns the value, whatever the default; what is read
    under any other key does not change, nor do the state and the events. *)
Theorem storage_round_trip key v d w :
  available (localStorage w) = true →
  JSON_parse (JSON_stringify v) = Some v →
  let w' := after (storageSet key v) w in
  result (storageGet key d) w' = v ∧
  (∀ key', key' ≠ key →
     result (storageGet key' d) w' = result (storageGet key' d) w) ∧
  state w' = state w ∧ published w' = published w.
Proof.
  intros Hav Hparse w'.
  unfold w', after, result, StateManager.storageSet, StateManager.storageGet.
  rewrite Hav. simpl. rewrite lookup_insert_eq, Hparse.
  repeat split; try done.
  intros key' Hne. rewrite lookup_insert_ne by (intros ->; done).
  destruct (items (localStorage w) !! key') as [item|]; [|done].
  by destruct (JSON_parse item).
Qed.

(** X16. The storage helpers swallow failures: when the storage cannot be
    used, [storageSet] changes nothing and [storageGet] returns the
    default; [storageGet] also returns the default when there is no item
    under the key or the item is not JSON; and reading never changes
    anything. *)
Theorem storage_failures_are_swallowed key v d w :
  (available (localStorage w) = false → after (storageSet key v) w = w) ∧
  (available (localStorage w) = false ∨
   items (localStorage w) !! key ≫= JSON_parse = None →
   result (storageGet key d) w = d) ∧
  after (storageGet key d) w = w.
Proof.
  unfold after, result, StateManager.storageSet, StateManager.storageGet.
  split; [|split].
  - by intros ->.
  - intros [->|Hnone]; [done|].
    destruct (available (localStorage w)); [|done].
    destruct (items (localStorage w) !! key) as [item|]; [|done].
    simpl in Hnone. by rewrite Hnone.
  - by repeat case_match.
Qed.

End StorageHelpers.

(** ** utils/helpers.js: [clamp] *)

(** X17. For bounds [min <= max], [clamp] returns a value between the
    bounds: the value itself when it lies between them, [min] when it is
    below and [max] when it is above. *)
Theorem clamp_between (value min max : Q) :
  (min <= max)%Q →
  (min <= Helpers.clamp value min max)%Q ∧
  (Helpers.clamp value min max <= max)%Q ∧
  ((min <= value)%Q → (value <= max)%Q →
   (Helpers.clamp value min max == value)%Q) ∧
  ((value <= min)%Q → (Helpers.clamp value min max == min)%Q) ∧
  ((max <= value)%Q → (Helpers.clamp value min max == max)%Q).
Proof.
  intros Hbounds. unfold Helpers.clamp.
  destruct (Q.max_spec min value) as [[Hlt Hmax]|[Hle Hmax]];
    destruct (Q.min_spec max (Qmax min value)) as [[Hlt' Hmin]|[Hle' Hmin]];
    rewrite Hmin; rewrite Hmax in *; repeat split; intros; lra.
Qed.

(** ** utils/helpers.js: file names *)

Lemma split_dot_nonempty (s : string) : Helpers.split_dot s ≠ [].
Proof.
  destruct s as [|c s]; simpl; [done|].
  destruct (Ascii.eqb c "."); [done|]. by destruct (Helpers.split_dot s).
Qed.

Lemma split_dot_dotless (s : string) : dotless s → Helpers.split_dot s = [s].
Proof.
  unfold dotless. induction s as [|c s IH]; simpl; [done|].
  intros Hdot. apply not_elem_of_cons in Hdot as [Hc Hs].
  destruct (Ascii.eqb_spec c ".") as [->|_]; [done|].
  by rewrite IH.
Qed.

(** The pieces of [base.rest] are those of [base], then those of [rest]. *)
Lemma split_dot_app (base rest : string) :
  Helpers.split_dot (base +:+ String "." rest) = Helpers.split_dot base ++ Helpers.split_dot rest.
Proof.
  induction base as [|c base IH]; simpl; [done|].
  rewrite IH. destruct (Ascii.eqb c "."); [done|].
  pose proof (split_dot_nonempty base) as Hne.
  by destruct (Helpers.split_dot base).
Qed.

Lemma append_not_empty (base rest : string) :
  base +:+ String "." rest ≠ EmptyString.
Proof. by destruct base. Qed.

(** No extension is in both lists. *)
Lemma video_not_audio (ext : string) :
  ext ∈ PLAYER_CONFIG.VIDEO_EXTENSIONS → ext ∉ PLAYER_CONFIG.AUDIO_EXTENSIONS.
Proof.
  unfold PLAYER_CONFIG.VIDEO_EXTENSIONS. rewrite !elem_of_cons, elem_of_nil.
  intros H.
  repeat (destruct H as [->|H];
          [by apply (proj1 (bool_decide_eq_false _))|]).
  done.
Qed.

Section FileNameFacts.
Variable toLowerCase : string → string.

Lemma getFileExtension_dotted (base ext : string) :
  dotless ext →
  Helpers.getFileExtension toLowerCase (base +:+ String "." ext)
  = toLowerCase ext.
Proof.
  intros Hext. unfold Helpers.getFileExtension.
  destruct (String.eqb_spec (base +:+ String "." ext) EmptyString) as [H|_].
  { by apply append_not_empty in H. }
  rewrite split_dot_app, (split_dot_dotless ext) by done.
  rewrite length_app, last_snoc. simpl.
  pose proof (split_dot_nonempty base) as Hne.
  rewrite decide_True; [done|].
  destruct (Helpers.split_dot base); [done | simpl; lia].
Qed.

Lemma getFileExtension_dotless (name : string) :
  dotless name → Helpers.getFileExtension toLowerCase name = EmptyString.
Proof.
  intros Hname. unfold Helpers.getFileExtension.
  destruct (String.eqb name EmptyString); [done|].
  by rewrite split_dot_dotless.
Qed.

(** X18. The extension of a file name is what follows its last dot, in
    lower case: for [ext] without a dot, [getFileExtension] maps
    [base.ext] to [ext] in lower case, whatever [base] is (dots included),
    and maps a name without a dot, such as [ext] itself, to the empty
    string. *)
Theorem getFileExtension_after_last_dot (base ext : string) :
  dotless ext →
  Helpers.getFileExtension toLowerCase (base +:+ String "." ext)
    = toLowerCase ext ∧
  Helpers.getFileExtension toLowerCase ext = EmptyString.
Proof.
  intros Hext.
  split; [by apply getFileExtension_dotted | by apply getFileExtension_dotless].
Qed.

(** X19. The media type of a file depends on its last extension only: for
    [ext] without a dot, [getMediaType] gives [base.ext] the type it gives
    to any other name ending in [.ext], which is video or audio when [ext]
    in lower case is in the list of video or audio extensions and unknown
    otherwise; a name without a dot has the unknown type. *)
Theorem getMediaType_by_last_extension (base base' ext : string) :
  dotless ext →
  Helpers.getMediaType toLowerCase (base +:+ String "." ext)
    = Helpers.getMediaType toLowerCase (base' +:+ String "." ext) ∧
  (Helpers.getMediaType toLowerCase (base +:+ String "." ext)
     = MEDIA_TYPE.VIDEO ↔
   toLowerCase ext ∈ PLAYER_CONFIG.VIDEO_EXTENSIONS) ∧
  (Helpers.getMediaType toLowerCase (base +:+ String "." ext)
     = MEDIA_TYPE.AUDIO ↔
   toLowerCase ext ∈ PLAYER_CONFIG.AUDIO_EXTENSIONS) ∧
  Helpers.getMediaType toLowerCase ext = MEDIA_TYPE.UNKNOWN.
Proof.
  intros Hext. unfold Helpers.getMediaType.
  rewrite !getFileExtension_dotted, getFileExtension_dotless by done.
  split; [done|]. split; [|split; [|done]].
  - destruct (bool_decide_reflect
                (toLowerCase ext ∈ PLAYER_CONFIG.VIDEO_EXTENSIONS)) as [Hv|Hv].
    + done.
    + split; [|done]. by case_bool_decide.
  - destruct (bool_decide_reflect
                (toLowerCase ext ∈ PLAYER_CONFIG.VIDEO_EXTENSIONS)) as [Hv|Hv].
    + split; [done|]. intros Ha. by apply video_not_audio in Hv.
    + by case_bool_decide.
Qed.

End FileNameFacts.

(** ** utils/helpers.js: [formatTime] *)

Example formatTime_minute : Helpers.formatTime 75 = "01:15".
Proof. reflexivity. Qed.

Example formatTime_hour : Helpers.formatTime (7451 # 2) = "01:02:05".
Proof. reflexivity. Qed.

Example formatTime_negative : Helpers.formatTime (-1 # 2) = "00:00".
Proof. reflexivity. Qed.






(** ** utils/helpers.js: [shuffleArray] *)

Section ShuffleArray.
Context `{Inhabited A}.
Implicit Types (a shuffled : list A).

Lemma swap_cells_permutation a (i j : nat) :
  (i < length a)%nat → (j < length a)%nat → Helpers.swap_cells a i j ≡ₚ a.
Proof.
  intros Hi Hj. unfold Helpers.swap_cells.
  apply lookup_lt_is_Some in Hi as [ai Hai], Hj as [aj Haj].
  rewrite (list_lookup_total_correct _ _ _ Hai).
  rewrite (list_lookup_total_correct _ _ _ Haj).
  by apply Permutation_insert_swap.
Qed.

Lemma swap_cells_length a (i j : nat) :
  length (Helpers.swap_cells a i j) = length a.
Proof. unfold Helpers.swap_cells. by rewrite !length_insert. Qed.

Lemma shuffleArray_loop_step (i : nat) shuffled (w : World) :
  Helpers.shuffleArray_loop (S i) shuffled w =
    Helpers.shuffleArray_loop i
      (Helpers.swap_cells shuffled (S i)
         (Z.to_nat (Qfloor (random w 0 * inject_Z (Z.of_nat (S i) + 1)))))
      (Math_random w).2.
Proof. reflexivity. Qed.

Lemma shuffleArray_loop_permutation (i : nat) shuffled (w : World) :
  random_ok w → (i < length shuffled)%nat →
  result (Helpers.shuffleArray_loop i shuffled) w ≡ₚ shuffled.
Proof.
  revert shuffled w. induction i as [|i IH]; intros shuffled w Hok Hi; [done|].
  unfold result in *. rewrite shuffleArray_loop_step.
  destruct (Hok 0%nat) as [Hr0 Hr1].
  pose proof (random_index_in_range _ (Z.of_nat (S i) + 1) Hr0 Hr1 ltac:(lia))
    as Hj.
  assert (Hj' : (Z.to_nat (Qfloor (random w 0 * inject_Z (Z.of_nat (S i) + 1)))
                  < S (S i))%nat) by lia.
  rewrite IH.
  - apply swap_cells_permutation; lia.
  - by apply random_ok_tail.
  - rewrite swap_cells_length. lia.
Qed.

Lemma shuffleArray_loop_frame (i : nat) shuffled (w : World) :
  let w' := after (Helpers.shuffleArray_loop i shuffled) w in
  state w' = state w ∧ localStorage w' = localStorage w ∧
  published w' = published w.
Proof.
  revert shuffled w. induction i as [|i IH]; intros shuffled w; [done|].
  unfold after in *. rewrite shuffleArray_loop_step.
  apply (IH _ (Math_random w).2).
Qed.

(** X21. With [Math.random] returning numbers in [[0, 1)], [shuffleArray]
    returns a permutation of its argument: the same elements, as often, in
    some order, hence an array of the same length; it touches neither the
    state nor the storage and publishes nothing. *)
Theorem shuffleArray_permutes (array : list A) (w : World) :
  random_ok w →
  result (Helpers.shuffleArray array) w ≡ₚ array ∧
  length (result (Helpers.shuffleArray array) w) = length array ∧
  state (after (Helpers.shuffleArray array) w) = state w ∧
  localStorage (after (Helpers.shuffleArray array) w) = localStorage w ∧
  published (after (Helpers.shuffleArray array) w) = published w.
Proof.
  intros Hok. unfold Helpers.shuffleArray.
  assert (Hperm :
    result (Helpers.shuffleArray_loop (length array - 1) array) w ≡ₚ array).
  { destruct array as [|x array]; [done|].
    apply shuffleArray_loop_permutation; [done | simpl; lia]. }
  split; [done|]. split; [by rewrite Hperm|].
  apply shuffleArray_loop_frame.
Qed.

End ShuffleArray.

(** ** features/PlaylistManager.js *)

Lemma queries_pure_next_previous (w : World) :
  after getNextTrackIndex w = w ∧ after getPreviousTrackIndex w = w.
Proof.
  unfold after, getNextTrackIndex, getPreviousTrackIndex,
    mbind, M_bind, mret, M_ret, this_state.
  split; repeat (case_match; try done).
Qed.

Section PlaylistManagerFacts.
Variable JSON_stringify : JSValue → string.
Implicit Types (w : World) (index n : Z).

Local Abbreviation playTrack := (PlaylistManager.playTrack JSON_stringify).
Local Abbreviation playNext := (PlaylistManager.playNext JSON_stringify).
Local Abbreviation playPrevious := (PlaylistManager.playPrevious JSON_stringify).
Local Abbreviation removeTrack := (PlaylistManager.removeTrack JSON_stringify).

Lemma playTrack_selected n w :
  let w' := after (playTrack n) w in
  selected w w' ∧
  playlist (state w') = playlist (state w) ∧
  shuffledOrder (state w') = shuffledOrder (state w) ∧
  (index_inv (state w) → index_inv (state w')).
Proof.
  intros w'. unfold w', PlaylistManager.playTrack.
  destruct (decide (0 <= n < Z.of_nat (length (playlist (state w)))))
    as [Hin|Hout].
  - destruct (setCurrentTrack_in_range JSON_stringify n w Hin)
      as (Hpl & Hcur & Hord & _ & _ & Hpub).
    destruct (js_index_in_range (playlist (state w)) n Hin) as [track Htrack].
    split; [|split; [done|split; [done|]]].
    + right. exists track. rewrite Hcur, Hpub, Htrack.
      unfold js_index in Htrack. rewrite decide_True in Htrack by lia.
      done.
    + intros _. unfold index_inv. rewrite Hpl, Hcur. by right.
  - rewrite setCurrentTrack_out_of_range by done.
    split; [by left | done].
Qed.

(** X22. [playNext] and [playPrevious] never change the playlist or the
    shuffle order, and keep a current index that is -1 or valid that way,
    whatever the shuffle order holds: either nothing changes at all, or an
    index inside the playlist becomes current and one track-change event
    announces the track at that index. *)
Theorem playNext_playPrevious_stay_valid w :
  index_inv (state w) →
  (let w' := after playNext w in
   selected w w' ∧ playlist (state w') = playlist (state w) ∧
   shuffledOrder (state w') = shuffledOrder (state w) ∧ index_inv (state w')) ∧
  (let w' := after playPrevious w in
   selected w w' ∧ playlist (state w') = playlist (state w) ∧
   shuffledOrder (state w') = shuffledOrder (state w) ∧ index_inv (state w')).
Proof.
  intros Hinv.
  assert (Hstep : ∀ r : option Z,
    let w' := after (match r with
                     | Some n => if decide (0 <= n) then playTrack n else mret ()
                     | None => mret ()
                     end) w in
    selected w w' ∧ playlist (state w') = playlist (state w) ∧
    shuffledOrder (state w') = shuffledOrder (state w) ∧ index_inv (state w')).
  { intros [n|]; [destruct (decide (0 <= n))|].
    - destruct (playTrack_selected n w) as (? & ? & ? & Hkeep).
      repeat split; auto.
    - repeat split; try done. by left.
    - repeat split; try done. by left. }
  destruct (queries_pure_next_previous w) as [Hnext Hprev].
  split.
  - pose proof (Hstep (result getNextTrackIndex w)) as Hs.
    unfold after, PlaylistManager.playNext, mbind, M_bind in *.
    rewrite (surjective_pairing (getNextTrackIndex w)).
    unfold after in Hnext. rewrite Hnext. exact Hs.
  - pose proof (Hstep (result getPreviousTrackIndex w)) as Hs.
    unfold after, PlaylistManager.playPrevious, mbind, M_bind in *.
    rewrite (surjective_pairing (getPreviousTrackIndex w)).
    unfold after in Hprev. rewrite Hprev. exact Hs.
Qed.

Lemma playNext_run w :
  after playNext w =
    match result getNextTrackIndex w with
    | Some n => if decide (0 <= n) then after (playTrack n) w else w
    | None => w
    end.
Proof.
  destruct (queries_pure_next_previous w) as [Hnext _].
  unfold after, result, PlaylistManager.playNext, mbind, M_bind in *.
  rewrite (surjective_pairing (getNextTrackIndex w)), Hnext.
  destruct (getNextTrackIndex w).1 as [n|]; [|done].
  cbn [fst]. by destruct (decide (0 <= n)).
Qed.

Lemma playPrevious_run w :
  after playPrevious w =
    match result getPreviousTrackIndex w with
    | Some n => if decide (0 <= n) then after (playTrack n) w else w
    | None => w
    end.
Proof.
  destruct (queries_pure_next_previous w) as [_ Hprev].
  unfold after, result, PlaylistManager.playPrevious, mbind, M_bind in *.
  rewrite (surjective_pairing (getPreviousTrackIndex w)), Hprev.
  destruct (getPreviousTrackIndex w).1 as [n|]; [|done].
  cbn [fst]. by destruct (decide (0 <= n)).
Qed.

(** X23. In sequential mode, on the last track, [playNext] does nothing at
    all when the repeat mode is off and goes to the first track when it is
    all; on the first track, [playPrevious] goes to the last track whatever
    the repeat mode is. *)
Theorem play_at_the_ends w :
  sequential_mode (state w) → playlist (state w) ≠ [] →
  let last_index := Z.of_nat (length (playlist (state w))) - 1 in
  (currentTrackIndex (state w) = last_index → repeatMode (state w) = OFF →
   after playNext w = w) ∧
  (currentTrackIndex (state w) = last_index → repeatMode (state w) = ALL →
   currentTrackIndex (state (after playNext w)) = 0) ∧
  (currentTrackIndex (state w) = 0 →
   currentTrackIndex (state (after playPrevious w)) = last_index).
Proof.
  intros Hseq Hne last_index.
  assert (Hlen : length (playlist (state w)) ≠ 0%nat)
    by by apply playlist_nonempty_length.
  split; [|split].
  - intros Hcur Hoff. rewrite playNext_run.
    rewrite <- (getNextTrackIndex_complete w (Some (-1))); [done|].
    apply next_sequential_end; try done. unfold last_index in Hcur. lia.
  - intros Hcur Hall. rewrite playNext_run.
    rewrite <- (getNextTrackIndex_complete w (Some 0)).
    2:{ apply next_sequential_wrap; try done. unfold last_index in Hcur. lia. }
    rewrite decide_True by lia. unfold PlaylistManager.playTrack.
    by destruct (setCurrentTrack_in_range JSON_stringify 0 w ltac:(lia))
      as (_ & -> & _).
  - intros Hcur. rewrite playPrevious_run.
    rewrite <- (getPreviousTrackIndex_complete w (Some last_index)).
    2:{ apply previous_sequential_wrap; try done. lia. }
    rewrite decide_True by (unfold last_index; lia).
    unfold PlaylistManager.playTrack.
    by destruct (setCurrentTrack_in_range JSON_stringify last_index w
                   ltac:(unfold last_index; lia)) as (_ & -> & _).
Qed.

Lemma removeTrack_run index w :
  after (removeTrack index) w =
    let w1 := after (removeFromPlaylist JSON_stringify index) w in
    if decide (index = currentTrackIndex (state w)) then
      if decide (0 < length (playlist (state w1)))%nat
      then after (playTrack
                    (Z.min index (Z.of_nat (length (playlist (state w1))) - 1)))
             w1
      else w1
    else w1.
Proof.
  unfold after, PlaylistManager.removeTrack, mbind, M_bind, this_state.
  destruct (removeFromPlaylist JSON_stringify index w) as [[] w1].
  cbn [snd]. destruct (decide (index = currentTrackIndex (state w))); [|done].
  by destruct (decide (0 < length (playlist (state w1)))%nat).
Qed.

(** X24. Removing the current track through the playlist manager, from a
    playlist of two tracks or more, starts the track that followed it, or
    the one before it when it was the last: the playlist loses the track,
    a playlist-update event and then a track-change event for the new
    current track are published, and [getCurrentTrack] returns that
    track. *)
Theorem removeTrack_starts_the_neighbour index w :
  0 <= index < Z.of_nat (length (playlist (state w))) →
  currentTrackIndex (state w) = index →
  (2 <= length (playlist (state w)))%nat →
  let w' := after (removeTrack index) w in
  let remaining := delete (Z.to_nat index) (playlist (state w)) in
  let neighbour :=
    if decide (index + 1 < Z.of_nat (length (playlist (state w))))
    then index + 1 else index - 1 in
  ∃ track,
    playlist (state w) !! Z.to_nat neighbour = Some track ∧
    playlist (state w') = remaining ∧
    result getCurrentTrack w' = Some track ∧
    published w' =
      published w ++
      [(EVENTS.PLAYLIST_UPDATE, PlaylistUpdate remaining);
       (EVENTS.TRACK_CHANGE,
        TrackChange (Some track) (currentTrackIndex (state w')))].
Proof.
  intros Hin Hcur Hlen w' remaining neighbour.
  unfold w'. rewrite removeTrack_run. cbv zeta.
  rewrite decide_True by done.
  set (w1 := after (removeFromPlaylist JSON_stringify index) w).
  destruct (removeFromPlaylist_state JSON_stringify index w) as (Hpl1 & _).
  pose proof (removeFromPlaylist_published JSON_stringify index w) as Hpub1.
  fold w1 in Hpl1, Hpub1.
  rewrite filter_index_delete in Hpl1, Hpub1 by lia.
  fold remaining in Hpl1, Hpub1.
  assert (Hlen1 : S (length remaining) = length (playlist (state w))).
  { unfold remaining. rewrite length_delete; [lia|].
    apply lookup_lt_is_Some. lia. }
  rewrite Hpl1. rewrite decide_True by lia.
  set (newIndex := Z.min index (Z.of_nat (length remaining) - 1)).
  assert (Hnew : 0 <= newIndex < Z.of_nat (length (playlist (state w1))))
    by (rewrite Hpl1; unfold newIndex; lia).
  unfold PlaylistManager.playTrack.
  destruct (setCurrentTrack_in_range JSON_stringify newIndex w1 Hnew)
    as (Hpl & Hcur' & _ & _ & _ & Hpub).
  destruct (js_index_in_range (playlist (state w1)) newIndex Hnew)
    as [track Htrack].
  exists track.
  assert (Hlookup : remaining !! Z.to_nat newIndex = Some track).
  { unfold js_index in Htrack. rewrite decide_True, Hpl1 in Htrack by lia.
    done. }
  split; [|split; [|split]].
  - rewrite <- Hlookup. unfold remaining, neighbour.
    destruct (decide (index + 1 < Z.of_nat (length (playlist (state w))))).
    + rewrite list_lookup_delete_ge by (unfold newIndex; lia).
      f_equal. unfold newIndex. lia.
    + rewrite list_lookup_delete_lt by (unfold newIndex; lia).
      f_equal. unfold newIndex. lia.
  - by rewrite Hpl.
  - unfold result, getCurrentTrack, mbind, M_bind, this_state, mret, M_ret.
    cbn [fst]. rewrite Hcur', Hpl, Hpl1.
    rewrite decide_True by lia. cbn [fst].
    unfold js_index. by rewrite decide_True by lia.
  - rewrite Hpub, Hpub1, Hcur', Htrack. by rewrite <- app_assoc.
Qed.

End PlaylistManagerFacts.

(** ** Moving a track *)

Section MoveTrack.
Context {A : Type}.
Implicit Types (r playlist : list A) (x : A).

Lemma inserted_lookup r x (t k : nat) :
  (t <= length r)%nat →
  (take t r ++ x :: drop t r) !! k =
    if decide (k < t)%nat then r !! k
    else if decide (k = t) then Some x
    else r !! (k - 1)%nat.
Proof.
  intros Ht.
  destruct (decide (k < t)%nat) as [Hlt|Hge].
  - rewrite lookup_app_l by (rewrite length_take_le; lia).
    by apply lookup_take_lt.
  - rewrite lookup_app_r by (rewrite length_take_le; lia).
    rewrite length_take_le by lia.
    destruct (decide (k = t)) as [->|Hne].
    + by rewrite Nat.sub_diag.
    + replace (k - t)%nat with (S (k - t - 1)) by lia. simpl.
      rewrite lookup_drop. f_equal. lia.
Qed.

Lemma inserted_permutation r x (t : nat) :
  take t r ++ x :: drop t r ≡ₚ x :: r.
Proof.
  rewrite <- Permutation_middle. by rewrite take_drop.
Qed.

(** X25. Moving a track from one position inside the playlist to another
    builds an array without holes that is a permutation of the playlist
    and has the moved track at the target position; and the current index
    that [moveTrack] computes points, in the new array, at the track that
    was current before. *)
Theorem moveTrack_keeps_the_current_track
    playlist (currentIndex fromIndex toIndex : Z) :
  0 <= fromIndex < Z.of_nat (length playlist) →
  0 <= toIndex < Z.of_nat (length playlist) →
  0 <= currentIndex < Z.of_nat (length playlist) →
  ∃ moved,
    PlaylistManager.moveTrack_playlist playlist fromIndex toIndex
      = Some <$> moved ∧
    moved ≡ₚ playlist ∧
    moved !! Z.to_nat toIndex = playlist !! Z.to_nat fromIndex ∧
    moved !! Z.to_nat
               (PlaylistManager.moveTrack_index currentIndex fromIndex toIndex)
      = playlist !! Z.to_nat currentIndex.
Proof.
  intros Hfrom Hto Hcur.
  destruct (lookup_lt_is_Some_2 playlist (Z.to_nat fromIndex) ltac:(lia))
    as [x Hx].
  set (rest := delete (Z.to_nat fromIndex) playlist).
  assert (Hlen : S (length rest) = length playlist).
  { unfold rest. rewrite length_delete; [lia | eauto]. }
  exists (take (Z.to_nat toIndex) rest ++ x :: drop (Z.to_nat toIndex) rest).
  split; [|split; [|split]].
  - unfold PlaylistManager.moveTrack_playlist, PlaylistManager.splice_remove,
      PlaylistManager.splice_insert.
    rewrite (decide_False (P := fromIndex < 0)) by lia.
    rewrite (Z.min_l fromIndex) by lia. fold rest. rewrite Hx.
    rewrite decide_False by lia. rewrite length_fmap.
    rewrite Z.min_l by lia.
    by rewrite fmap_app, fmap_cons, fmap_take, fmap_drop.
  - rewrite inserted_permutation. unfold rest.
    symmetry. by apply delete_Permutation.
  - rewrite inserted_lookup by lia.
    rewrite decide_False by lia. by rewrite decide_True.
  - rewrite inserted_lookup by lia.
    unfold PlaylistManager.moveTrack_index, rest.
    destruct (decide (fromIndex = currentIndex)) as [->|Hne].
    { rewrite decide_False by lia. by rewrite decide_True. }
    destruct (decide (fromIndex < currentIndex ∧ currentIndex <= toIndex)).
    { rewrite decide_True by lia.
      rewrite list_lookup_delete_ge by lia. f_equal. lia. }
    destruct (decide (currentIndex < fromIndex ∧ toIndex <= currentIndex)).
    { rewrite decide_False by lia. rewrite decide_False by lia.
      rewrite list_lookup_delete_lt by lia. f_equal. lia. }
    destruct (decide (Z.to_nat currentIndex < Z.to_nat toIndex)%nat).
    + rewrite list_lookup_delete_lt by lia. done.
    + rewrite decide_False by lia.
      rewrite list_lookup_delete_ge by lia. f_equal. lia.
Qed.

End MoveTrack.

(** ** [once] *)

Section Once.
Import EventBus.
Context {Data : Type}.
Variable throws : Callback → bool.
Implicit Types (b : EventBusRun.t) (event : string) (cb wrapper c : Callback)
  (data : Data).

Local Abbreviation emit := (EventBusRun.emit throws).
Local Abbreviation call := (EventBusRun.call throws).

Lemma emit_run event data b :
  emit event data b
  = foldl (call data) (b, []) (listeners event (EventBusRun.bus b)).
Proof.
  unfold EventBusRun.emit, listeners.
  by destruct (events (EventBusRun.bus b) !! event).
Qed.

(** Listeners that are no wrappers are called in turn, the bus stays. *)
Lemma fold_plain data b (trace : list (Callback * Data)) (s : list Callback) :
  (∀ c, c ∈ s → EventBusRun.wrappers b !! c = None) →
  foldl (call data) (b, trace) s
  = (b, trace ++ ((fun c => (c, data)) <$> s)).
Proof.
  revert trace. induction s as [|c s IH]; intros trace Hplain; simpl.
  - by rewrite app_nil_r.
  - rewrite (Hplain c) by by left.
    rewrite IH by (intros c' Hc'; apply Hplain; by right).
    by rewrite <- app_assoc.
Qed.

(** X26. A callback registered with [once], beside listeners that are
    ordinary callbacks, is called by the next [emit] after them. When the
    call returns, the registration is gone: the event has the listeners it
    had before, and a second [emit] calls only them. When the call raises,
    the registration is not removed, and a second [emit] calls the callback
    again. *)
Theorem once_fires_once event cb wrapper data b :
  EventBusRun.wrappers b !! wrapper = None →
  wrapper ∉ listeners event (EventBusRun.bus b) →
  (∀ c, c ∈ listeners event (EventBusRun.bus b) →
        EventBusRun.wrappers b !! c = None) →
  let before := (fun c => (c, data)) <$> listeners event (EventBusRun.bus b) in
  let b1 := EventBusRun.once event cb wrapper b in
  let b2 := (emit event data b1).1 in
  (emit event data b1).2 = before ++ [(cb, data)] ∧
  (throws cb = false →
   listeners event (EventBusRun.bus b2) = listeners event (EventBusRun.bus b) ∧
   (emit event data b2).2 = before) ∧
  (throws cb = true →
   (emit event data b2).2 = before ++ [(cb, data)]).
Proof.
  intros Hfresh Hnew Hplain before b1 b2.
  set (s := listeners event (EventBusRun.bus b)) in *.
  assert (Hs1 : listeners event (EventBusRun.bus b1) = s ++ [wrapper]).
  { unfold b1, EventBusRun.once. cbn [EventBusRun.bus EventBusRun.wrappers]. rewrite on_listeners.
    unfold set_add. by rewrite decide_False. }
  assert (Hplain1 : ∀ c, c ∈ s → EventBusRun.wrappers b1 !! c = None).
  { intros c Hc. unfold b1, EventBusRun.once. cbn [EventBusRun.bus EventBusRun.wrappers].
    rewrite lookup_insert_ne; [by apply Hplain|].
    intros ->. by apply Hnew. }
  assert (Hw1 : EventBusRun.wrappers b1 !! wrapper = Some (event, cb)).
  { unfold b1, EventBusRun.once. cbn [EventBusRun.bus EventBusRun.wrappers]. apply lookup_insert_eq. }
  assert (Hrun : emit event data b1
                 = call data (b1, before) wrapper).
  { rewrite emit_run, Hs1, foldl_app. simpl.
    by rewrite (fold_plain data b1 [] s Hplain1). }
  unfold b2. rewrite Hrun. unfold EventBusRun.call. rewrite Hw1.
  destruct (throws cb) eqn:Hthrows; cbn [fst snd].
  - split; [done|]. split; [done|]. intros _.
    rewrite Hrun. unfold EventBusRun.call. by rewrite Hw1, Hthrows.
  - split; [done|]. split; [|done]. intros _.
    assert (Hs2 : listeners event (off event wrapper (EventBusRun.bus b1)) = s).
    { rewrite off_listeners, Hs1. unfold set_delete.
      rewrite filter_app, filter_cons, decide_False, filter_nil, app_nil_r
        by (intros H; by apply H).
      by apply set_delete_absent. }
    cbn [EventBusRun.bus]. split; [done|].
    rewrite emit_run. cbn [EventBusRun.bus]. rewrite Hs2.
    by rewrite (fold_plain data _ [] s) by done.
Qed.

End Once.

(** * The further properties on sample data *)

Local Ltac not_in_list :=
  let H := fresh in
  intros H; repeat (apply elem_of_cons in H as [H|H]; [discriminate H|]);
  by apply elem_of_nil in H.

(** Three tracks, the first one current: selecting index 1 makes the
    second track the current one. *)
Lemma setCurrentTrack_selects_witness :
  let w := Sample.world
             (Sample.player [Sample.A; Sample.B; Sample.C] 0 OFF false []) in
  result getCurrentTrack (after (setCurrentTrack Sample.JSON_stringify 1) w)
  = Some Sample.B.
Proof.
  intros w.
  destruct (setCurrentTrack_selects Sample.JSON_stringify 1 w)
    as (track & Hlookup & _ & Hcurrent & _); [simpl; lia|].
  simpl in Hlookup. injection Hlookup as <-. exact Hcurrent.
Defined.

(** Two tracks, none selected: there is no current track. *)
Lemma getCurrentTrack_correct_witness :
  let w := Sample.world
             (Sample.player [Sample.A; Sample.B] (-1) OFF false []) in
  result getCurrentTrack w = None.
Proof.
  intros w.
  destruct (getCurrentTrack_correct w) as [[_ Hnone] _]; [by left|].
  apply Hnone. reflexivity.
Defined.


(** Over an empty storage the store starts from the defaults, whatever
    state the world was in. *)
Lemma constructor_defaults_witness :
  state (after (constructor Sample.JSON_parse)
           (Sample.world (Sample.player [Sample.A] 0 ALL true [0])))
  = initial_state.
Proof.
  rewrite (constructor_defaults Sample.JSON_parse
             (Sample.world (Sample.player [Sample.A] 0 ALL true [0]))).
  - reflexivity.
  - right. intros key _. simpl. by rewrite lookup_empty.
Defined.

(** Three tracks in sequence, the last one current, repeat off: the next
    index is a number that is -1 or below 3. *)
Lemma navigation_stays_in_playlist_witness :
  let w := Sample.world
             (Sample.player [Sample.A; Sample.B; Sample.C] 2 OFF false []) in
  ∃ n, result getNextTrackIndex w = Some n ∧ (n = -1 ∨ 0 <= n < 3).
Proof.
  intros w.
  destruct (navigation_stays_in_playlist w) as [Hnext _].
  - right. simpl. lia.
  - by left.
  - exact Hnext.
Defined.

(** One listener on [play]: after [clear('play')] there is none. *)
Lemma clear_removes_listeners_witness :
  EventBus.listenerCount "play"
    (EventBus.clear (Some "play") (EventBus.on "play" 1%nat EventBus.new).1)
  = 0%nat.
Proof.
  destruct (clear_removes_listeners "play" tt
              (EventBus.on "play" 1%nat EventBus.new).1) as [Hcount _].
  - discriminate.
  - exact Hcount.
Defined.

(** A second callback subscribed to [play] is not called for [pause]. *)
Lemma emit_calls_each_listener_once_witness :
  let bus := (EventBus.on "play" 1%nat EventBus.new).1 in
  EventBus.emit "pause" tt (EventBus.on "play" 2%nat bus).1
  = EventBus.emit "pause" tt bus.
Proof.
  intros bus.
  destruct (emit_calls_each_listener_once "play" 2%nat tt bus)
    as (_ & _ & Hother).
  - apply on_wf, new_wf.
  - apply Hother. discriminate.
Defined.

(** On a new bus, [on('play', 1)()] leaves [play] without listeners. *)
Lemma subscribe_then_unsubscribe_witness :
  let bus := EventBus.new in
  listeners "play"
    (EventBus.unsubscribe (EventBus.on "play" 1%nat bus).2
       (EventBus.on "play" 1%nat bus).1)
  = listeners "play" bus.
Proof.
  intros bus.
  apply (subscribe_then_unsubscribe "play" 1%nat bus).
  unfold listeners, bus. simpl. rewrite lookup_empty. apply not_elem_of_nil.
Defined.

(** [storageSet('muted', true)] then [storageGet('muted', null)]. *)
Lemma storage_round_trip_witness :
  let w := Sample.world initial_state in
  result (storageGet Sample.JSON_parse "muted" JSNull)
    (after (storageSet Sample.JSON_stringify "muted" (JSBool true)) w)
  = JSBool true.
Proof.
  intros w.
  destruct (storage_round_trip Sample.JSON_stringify Sample.JSON_parse
              "muted" (JSBool true) JSNull w) as [Hget _].
  - reflexivity.
  - reflexivity.
  - exact Hget.
Defined.

(** [clamp(1.5, 0, 1)] is [1]. *)
Lemma clamp_between_witness : (Helpers.clamp (3 # 2) 0 1 == 1)%Q.
Proof.
  destruct (clamp_between (3 # 2) 0 1) as (_ & _ & _ & _ & Habove).
  - unfold Qle. simpl. lia.
  - apply Habove. unfold Qle. simpl. lia.
Defined.

(** [song.final.mp3] has the extension [mp3]. *)
Lemma getFileExtension_after_last_dot_witness :
  Helpers.getFileExtension (fun s => s) "song.final.mp3" = "mp3".
Proof.
  destruct (getFileExtension_after_last_dot (fun s => s) "song.final" "mp3")
    as [Hext _].
  - unfold dotless. simpl. not_in_list.
  - exact Hext.
Defined.

(** [clip.old.mp4] and [b.mp4] have the same media type. *)
Lemma getMediaType_by_last_extension_witness :
  Helpers.getMediaType (fun s => s) "clip.old.mp4"
  = Helpers.getMediaType (fun s => s) "b.mp4".
Proof.
  destruct (getMediaType_by_last_extension (fun s => s) "clip.old" "b" "mp4")
    as [Hsame _].
  - unfold dotless. simpl. not_in_list.
  - exact Hsame.
Defined.


(** Shuffling [[1; 2; 3]] with every draw 1/2. *)
Lemma shuffleArray_permutes_witness :
  result (Helpers.shuffleArray [1; 2; 3]) (Sample.world initial_state)
  ≡ₚ [1; 2; 3].
Proof.
  destruct (shuffleArray_permutes [1; 2; 3] (Sample.world initial_state))
    as [Hperm _].
  - apply sample_random_ok.
  - exact Hperm.
Defined.

(** Three tracks, the second one current: after [playNext] the current
    index is still -1 or valid. *)
Lemma playNext_playPrevious_stay_valid_witness :
  let w := Sample.world
             (Sample.player [Sample.A; Sample.B; Sample.C] 1 OFF false []) in
  index_inv (state (after (PlaylistManager.playNext Sample.JSON_stringify) w)).
Proof.
  intros w.
  destruct (playNext_playPrevious_stay_valid Sample.JSON_stringify w)
    as [(_ & _ & _ & Hinv) _].
  - right. simpl. lia.
  - exact Hinv.
Defined.

(** Three tracks in sequence, the last one current, repeat off:
    [playNext] does nothing. *)
Lemma play_at_the_ends_witness :
  let w := Sample.world
             (Sample.player [Sample.A; Sample.B; Sample.C] 2 OFF false []) in
  after (PlaylistManager.playNext Sample.JSON_stringify) w = w.
Proof.
  intros w.
  destruct (play_at_the_ends Sample.JSON_stringify w) as [Hlast _].
  - by left.
  - discriminate.
  - apply Hlast; reflexivity.
Defined.

(** Three tracks, the second one current: removing it starts the third. *)
Lemma removeTrack_starts_the_neighbour_witness :
  let w := Sample.world
             (Sample.player [Sample.A; Sample.B; Sample.C] 1 OFF false []) in
  result getCurrentTrack
    (after (PlaylistManager.removeTrack Sample.JSON_stringify 1) w)
  = Some Sample.C.
Proof.
  intros w.
  destruct (removeTrack_starts_the_neighbour Sample.JSON_stringify 1 w)
    as (track & Hlookup & _ & Hcurrent & _).
  - simpl. lia.
  - reflexivity.
  - simpl. lia.
  - simpl in Hlookup. injection Hlookup as <-. exact Hcurrent.
Defined.

(** Moving the first of four tracks to the end while the third is
    current: the current index becomes 1. *)
Lemma moveTrack_keeps_the_current_track_witness :
  PlaylistManager.moveTrack_index 2 0 3 = 1 ∧
  ∃ moved,
    PlaylistManager.moveTrack_playlist [10; 20; 30; 40] 0 3 = Some <$> moved ∧
    moved ≡ₚ [10; 20; 30; 40] ∧
    moved !! 3%nat = Some 10 ∧
    moved !! 1%nat = Some 30.
Proof.
  split; [reflexivity|].
  apply (moveTrack_keeps_the_current_track [10; 20; 30; 40] 2 0 3);
    simpl; lia.
Defined.

(** On a new bus, a callback registered with [once] is called by the
    first [emit]. *)
Lemma once_fires_once_witness :
  let b := {| EventBusRun.bus := EventBus.new; EventBusRun.wrappers := ∅ |} in
  (EventBusRun.emit (fun _ => false) "ended" tt
     (EventBusRun.once "ended" 1%nat 2%nat b)).2
  = [(1%nat, tt)].
Proof.
  intros b.
  destruct (once_fires_once (fun _ => false) "ended" 1%nat 2%nat tt b)
    as [Hfirst _].
  - apply lookup_empty.
  - unfold listeners. simpl. rewrite lookup_empty. apply not_elem_of_nil.
  - intros c _. apply lookup_empty.
  - rewrite Hfirst. unfold listeners. simpl. by rewrite lookup_empty.
Defined.
